(** * Perceptual colour ramps

    A shallow embedding of the numerical core of two notebooks:

    - [kindlmann.ipynb]: the hue sweep.  A hue is rotated through HSV space
      while the CIE Lab luminance is forced to grow linearly with the scalar;
      the chroma is pulled back into the sRGB gamut by a 12 step bisection.
    - [viridis.ipynb]: the interpolated lookup.  A dense table of samples is
      converted to Lab once, and a query is answered by a linear scan for the
      bracketing interval followed by a linear interpolation in Lab.

    Python floats are idealised as exact rationals in canonical form ([Qc]),
    so that equality of numbers is Leibniz equality and every definition
    below still evaluates.  The colour-space transforms themselves belong to
    the python-colormath package and are an interface here
    ([Colormath.ColorMath]). *)

From Stdlib Require Import ZArith QArith Qcanon Qround List Lia Lqa Bool Sorted.
From Stdlib Require Qcabs.
Import ListNotations.
Open Scope Qc_scope.

(** ** Numbers *)

Module Num.

(** Integer literals of the notebooks, as canonical rationals. *)
Definition ofZ (z : Z) : Qc := Q2Qc (inject_Z z).

Definition ofnat (n : nat) : Qc := ofZ (Z.of_nat n).

(** Python's [x <= y] and [x < y] on floats. *)
Definition leb (x y : Qc) : bool := Qle_bool x y.
Definition ltb (x y : Qc) : bool := negb (Qle_bool y x).

(** [numpy.max] and [numpy.min] of two numbers. *)
Definition max (x y : Qc) : Qc := if leb x y then y else x.
Definition min (x y : Qc) : Qc := if leb x y then x else y.

(** [math.floor]. *)
Definition floor (x : Qc) : Z := Qfloor x.

(** The number [k / 2^i]. *)
Definition dyadic (i : nat) (k : Z) : Qc :=
  ofZ k / ofZ (2 ^ Z.of_nat i).

End Num.

Coercion Num.ofZ : Z >-> Qc.

Notation "x <=? y" := (Num.leb x y) (at level 70, no associativity) : Qc_scope.
Notation "x <? y" := (Num.ltb x y) (at level 70, no associativity) : Qc_scope.

(** Order goals on [Qc] are sent to [Q], where [lra] decides them. *)
Ltac qc_to_q :=
  unfold Qcle, Qclt, Qcplus, Qcminus, Qcopp, Qcmult, Qcdiv, Qcinv,
    Num.ofnat, Num.ofZ, Q2Qc in *;
  cbn [this] in *;
  rewrite ?Qred_correct in *.

Ltac qc_lra := qc_to_q; lra.

(** The same with subtraction and division opened first, so that nested
    differences are reached. *)
Ltac qc_open :=
  unfold Qcminus, Qcdiv in *;
  unfold Qcle, Qclt, Qcplus, Qcopp, Qcmult, Qcinv,
    Num.ofnat, Num.ofZ, Q2Qc in *;
  cbn [this] in *;
  rewrite ?Qred_correct in *.

Ltac qc_arith := qc_open; lra.

(** ** The colormath objects the notebooks use *)

Module Colormath.

Record sRGB : Set := sRGBColor { rgb_r : Qc; rgb_g : Qc; rgb_b : Qc }.
Record Lab : Set := LabColor { lab_l : Qc; lab_a : Qc; lab_b : Qc }.
Record HSV : Set := HSVColor { hsv_h : Qc; hsv_s : Qc; hsv_v : Qc }.

(** "A color from the colormath.color_objects package". *)
Inductive color : Set :=
| OfRGB (c : sRGB)
| OfLab (c : Lab)
| OfHSV (c : HSV).

(** The transforms behind [convert_color].  They are code of the colormath
    package, not of the notebooks, so they are taken as an interface. *)
Class ColorMath : Type := {
  HSV_to_RGB : HSV -> sRGB;
  RGB_to_Lab : sRGB -> Lab;
  Lab_to_RGB : Lab -> sRGB
}.

(** What the idealised transforms are expected to satisfy: the Lab/RGB pair
    are inverse bijections, black sits at luminance 0 and white at
    luminance 100, both without chroma. *)
Class ColorMathLaws (CM : ColorMath) : Prop := {
  RGB_Lab_RGB : forall c, Lab_to_RGB (RGB_to_Lab c) = c;
  Lab_RGB_Lab : forall c, RGB_to_Lab (Lab_to_RGB c) = c;
  Lab_black : RGB_to_Lab (sRGBColor 0 0 0) = LabColor 0 0 0;
  Lab_white : RGB_to_Lab (sRGBColor 1 1 1) = LabColor 100%Z 0 0
}.

Section Convert.
Context {CM : ColorMath}.

(** [convert_color(color, sRGBColor)] *)
Definition to_sRGB (c : color) : sRGB :=
  match c with
  | OfRGB c => c
  | OfLab c => Lab_to_RGB c
  | OfHSV c => HSV_to_RGB c
  end.

(** [convert_color(color, LabColor)] *)
Definition to_Lab (c : color) : Lab :=
  match c with
  | OfRGB c => RGB_to_Lab c
  | OfLab c => c
  | OfHSV c => RGB_to_Lab (HSV_to_RGB c)
  end.
End Convert.

(** [sRGBColor.get_value_tuple] *)
Definition get_value_tuple (c : sRGB) : Qc * Qc * Qc :=
  (rgb_r c, rgb_g c, rgb_b c).

(** Modelled from the spec: [get_upscaled_value_tuple] is a method of the
    colormath package, which is not part of the sources.  The data model
    describes the upscaled variant of a sample as "the same triple with
    components rounded to integers in [0,255]"; the rounding is rendered
    as round-half-up of 255 times the channel, which agrees with every
    row the kindlmann notebook prints. *)
Definition upscale (v : Qc) : Z := Num.floor (Q2Qc (1 # 2) + v * 255%Z).

Definition get_upscaled_value_tuple (c : sRGB) : Z * Z * Z :=
  (upscale (rgb_r c), upscale (rgb_g c), upscale (rgb_b c)).

End Colormath.

Import Colormath.

Coercion OfRGB : sRGB >-> color.
Coercion OfLab : Lab >-> color.
Coercion OfHSV : HSV >-> color.

Definition black : sRGB := sRGBColor 0 0 0.
Definition white : sRGB := sRGBColor 1 1 1.

(** ** numpy.linspace

    [numpy.linspace(start, stop, num)]: [num] evenly spaced numbers, the
    first one [start] and, when there are at least two, the last one
    [stop]. *)

Definition linspace (start stop : Qc) (num : nat) : list Qc :=
  let step := (stop - start) / Num.ofnat (num - 1) in
  map (fun i => start + Num.ofnat i * step) (seq 0 num).

(** [numpy.arange(start, stop, step)]: the values [start + i*step], as many
    as the ceiling of [(stop - start) / step]. *)
Definition arange (start stop step : Qc) : list Qc :=
  let num := Z.to_nat (Qceiling ((stop - start) / step)) in
  map (fun i => start + Num.ofnat i * step) (seq 0 num).

(** ** kindlmann.ipynb *)

Module Kindlmann.
Section WithColorMath.
Context {CM : ColorMath}.

Definition valid_color (c : color) : bool :=
  let rgb := get_upscaled_value_tuple (to_sRGB c) in
  let '(r, g, b) := rgb in
  (0 <=? r)%Z && (r <=? 255)%Z &&
  (0 <=? g)%Z && (g <=? 255)%Z &&
  (0 <=? b)%Z && (b <=? 255)%Z.

Definition safe_color (c : color) : bool :=
  let rgb_color := to_sRGB c in
  let '(r, g, b) := get_value_tuple rgb_color in
  let clamp_dist :=
    Q2Qc (5 # 100) * (Num.max (Num.max r g) b - Num.min (Num.min r g) b) in
  (clamp_dist <=? rgb_r rgb_color) && (rgb_r rgb_color <=? 1 - clamp_dist) &&
  (clamp_dist <=? rgb_g rgb_color) && (rgb_g rgb_color <=? 1 - clamp_dist) &&
  (clamp_dist <=? rgb_b rgb_color) && (rgb_b rgb_color <=? 1 - clamp_dist).

(** The body of [for i in xrange(0, n)] in [scale_hue]: the pair
    [(low_scale, high_scale)] after [n] rounds, [safe] being the test
    applied to the midpoint. *)
Fixpoint bisect (safe : Qc -> bool) (n : nat) (low_scale high_scale : Qc)
  : Qc * Qc :=
  match n with
  | O => (low_scale, high_scale)
  | S n' =>
      let mid_scale := (high_scale - low_scale) / 2%Z + low_scale in
      if safe mid_scale
      then bisect safe n' mid_scale high_scale
      else bisect safe n' low_scale mid_scale
  end.

(** The Lab colour probed at a given chroma scale. *)
Definition scaled_lab (hue scalar scale : Qc) : Lab :=
  let hsv_original := HSVColor hue 1 1 in
  let rgb_original := to_sRGB hsv_original in
  let lab_original := to_Lab rgb_original in
  let l_target := 100%Z * scalar in
  let a_original := lab_a lab_original in
  let b_original := lab_b lab_original in
  LabColor l_target (scale * a_original) (scale * b_original).

(** [low_scale] when the loop of [scale_hue] is left. *)
Definition chroma_scale (hue scalar : Qc) : Qc :=
  fst (bisect (fun mid_scale => safe_color (scaled_lab hue scalar mid_scale))
              12 0 1).

Definition scale_hue (hue scalar : Qc) : sRGB :=
  if scalar <=? 0 then sRGBColor 0 0 0
  else if 1 <=? scalar then sRGBColor 1 1 1
  else to_sRGB (scaled_lab hue scalar (chroma_scale hue scalar)).

(** A row of the table of [build_kindlmann_colors]. *)
Record row : Set := Row {
  hue : Qc;
  scalar : Qc;
  sRGBColor_ : sRGB;
  RGB : Z * Z * Z;
  sRGB_ : Qc * Qc * Qc
}.

Definition build_kindlmann_colors (hue_array : list Qc) : list row :=
  map (fun hs : Qc * Qc =>
         let color := scale_hue (fst hs) (snd hs) in
         Row (fst hs) (snd hs) color
             (get_upscaled_value_tuple color) (get_value_tuple color))
      (combine hue_array (linspace 0 1 (length hue_array))).

(** [control_points]: a hue every 30 degrees from [start_hue] down to
    [end_hue]. *)
Definition control_points (start_hue end_hue : Qc) : list row :=
  build_kindlmann_colors
    (arange start_hue (end_hue - Q2Qc (1 # 10000)) (Num.ofZ (-30))).

(** The hue sweep at a resolution: hues [linspace(start_hue, end_hue, n)]
    against scalars [linspace(0, 1, n)]. *)
Definition hue_sweep (start_hue end_hue : Qc) (n : nat) : list row :=
  build_kindlmann_colors (linspace start_hue end_hue n).

End WithColorMath.
End Kindlmann.

(** The flat [RGBPoints] list of a preset: for each sample its scalar
    followed by its three channels (the export loop of kindlmann.ipynb). *)
Definition RGBPoints (rows : list (Qc * sRGB)) : list Qc :=
  flat_map (fun sc => fst sc :: rgb_r (snd sc) :: rgb_g (snd sc) :: rgb_b (snd sc) :: [])
           rows.

(** ** viridis.ipynb *)

Module Viridis.

(** A row of the data frame [data]. *)
Record sample : Set := Sample {
  scalar : Qc;
  rgb_values : sRGB;
  lab_values : Lab
}.

(** The loop over [raw_color_data['RGBPoints']], four numbers at a time.
    [None] is the [IndexError] raised when the flat list stops inside a
    group of four. *)
Fixpoint read_points (points : list Qc) : option (list (Qc * sRGB)) :=
  match points with
  | [] => Some []
  | s :: r :: g :: b :: rest =>
      match read_points rest with
      | Some rows => Some ((s, sRGBColor r g b) :: rows)
      | None => None
      end
  | _ => None
  end.

(** What a lookup yields: a colour, or nothing rational when the fraction
    [(x - low) / (high - low)] has a zero denominator. *)
Inductive outcome : Set :=
| Color (c : sRGB)
| ZeroDivision.

Section WithColorMath.
Context {CM : ColorMath}.

(** [data], with its [lab_values] column. *)
Definition load (points : list Qc) : option (list sample) :=
  match read_points points with
  | Some rows =>
      Some (map (fun sc => Sample (fst sc) (snd sc) (to_Lab (snd sc))) rows)
  | None => None
  end.

(** The statements after the [continue] test, for one interval. *)
Definition interpolate (low high : sample) (x : Qc) : outcome :=
  let low_scalar := scalar low in
  let high_scalar := scalar high in
  let low_lab := lab_values low in
  let high_lab := lab_values high in
  if Qc_eq_dec (high_scalar - low_scalar) 0 then ZeroDivision
  else
    let interp := (x - low_scalar) / (high_scalar - low_scalar) in
    let mid_lab :=
      LabColor (interp * (lab_l high_lab - lab_l low_lab) + lab_l low_lab)
               (interp * (lab_a high_lab - lab_a low_lab) + lab_a low_lab)
               (interp * (lab_b high_lab - lab_b low_lab) + lab_b low_lab) in
    Color (to_sRGB mid_lab).

(** [for index in range(0, data.index.size-1)]: the rows [index] and
    [index+1] are the first two of the remaining list. *)
Fixpoint scan (data : list sample) (x : Qc) : outcome :=
  match data with
  | low :: (high :: _) as rest =>
      if scalar high <? x then scan rest x
      else interpolate low high x
  | _ => Color (sRGBColor 1 1 1)
  end.

(** The rows [index] and [index+1] at which the loop stops scanning,
    if it stops before the table is exhausted. *)
Fixpoint selected (data : list sample) (x : Qc) : option (sample * sample) :=
  match data with
  | low :: (high :: _) as rest =>
      if scalar high <? x then selected rest x
      else Some (low, high)
  | _ => None
  end.

Definition color_lookup_sRGBColor (data : list sample) (x : Qc) : outcome :=
  if x <? 0 then Color (sRGBColor 0 0 0) else scan data x.

End WithColorMath.
End Viridis.

(** ** The tables the notebooks derive

    The cells after the support functions: the preset export of
    kindlmann.ipynb, and the sampled tables and the error estimate of
    viridis.ipynb. *)

Module Preset.

(** The loop that fills [RGBPoints] from [color_table]: for each row its
    scalar, then the three entries of its [sRGB] tuple. *)
Definition kindlmann_RGBPoints (color_table : list Kindlmann.row) : list Qc :=
  flat_map (fun r =>
              let '(r_, g_, b_) := Kindlmann.sRGB_ r in
              Kindlmann.scalar r :: r_ :: g_ :: b_ :: [])
           color_table.

End Preset.

Module Reduce.
Import Viridis.

Section WithColorMath.
Context {CM : ColorMath}.

(** [color_lookup] and [color_lookup_upscaled]; [None] where the lookup
    has no colour to take the tuple of. *)
Definition color_lookup (data : list sample) (x : Qc) : option (Qc * Qc * Qc) :=
  match color_lookup_sRGBColor data x with
  | Color c => Some (get_value_tuple c)
  | ZeroDivision => None
  end.

Definition color_lookup_upscaled (data : list sample) (x : Qc)
  : option (Z * Z * Z) :=
  match color_lookup_sRGBColor data x with
  | Color c => Some (get_upscaled_value_tuple c)
  | ZeroDivision => None
  end.

(** The [scalar] and [RGB] columns of [colors_long], [control_points],
    [control_points_compare] and [color_table]: [num] scalars over [0,1],
    each with its looked up byte triple. *)
Definition color_table (data : list sample) (num : nat)
  : list (Qc * option (Z * Z * Z)) :=
  map (fun x => (x, color_lookup_upscaled data x)) (linspace 0 1 num).

End WithColorMath.

(** The columns [RGB_r], [RGB_g], [RGB_b] of a table, as triples. *)
Definition bytes : Set := (Z * Z * Z)%type.

(** [abs(expected - interp)] with
    [interp = (control_points[column][index] + control_points[column][index+1])/2].
    The columns hold 64-bit integers; the sum is taken in [Z], which is
    what the code computes as long as it stays in that range, as it does
    for byte values. *)
Definition diff (expected low high : Z) : Qc :=
  Qcabs.Qcabs (Num.ofZ expected - (Num.ofZ low + Num.ofZ high) / 2%Z).

(** [if (diff > max_error): max_error = diff] *)
Definition raise_to (max_error d : Qc) : Qc :=
  if max_error <? d then d else max_error.

(** The body of the outer loop for one [index]; [None] is the [KeyError]
    of a row that is not in a table. *)
Definition column_pass (control_points control_points_compare : list bytes)
           (max_error : Qc) (index : nat) : option Qc :=
  match nth_error control_points_compare (index * 2 + 1),
        nth_error control_points index,
        nth_error control_points (index + 1) with
  | Some (er, eg, eb), Some (lr, lg, lb), Some (hr, hg, hb) =>
      let max_error := raise_to max_error (diff er lr hr) in
      let max_error := raise_to max_error (diff eg lg hg) in
      let max_error := raise_to max_error (diff eb lb hb) in
      Some max_error
  | _, _, _ => None
  end.

(** [for index in range(0, table_length-1)], from a given [max_error]. *)
Fixpoint error_loop (control_points control_points_compare : list bytes)
         (indices : list nat) (max_error : Qc) : option Qc :=
  match indices with
  | [] => Some max_error
  | index :: indices' =>
      match column_pass control_points control_points_compare max_error index with
      | Some max_error' =>
          error_loop control_points control_points_compare indices' max_error'
      | None => None
      end
  end.

Definition max_error (table_length : nat)
           (control_points control_points_compare : list bytes) : option Qc :=
  error_loop control_points control_points_compare
             (seq 0 (table_length - 1)) 0.

(** The three values of [diff] that the loop computes for one [index];
    none when one of the rows it reads is missing. *)
Definition diffs_at (control_points control_points_compare : list bytes)
           (index : nat) : list Qc :=
  match nth_error control_points_compare (index * 2 + 1),
        nth_error control_points index,
        nth_error control_points (index + 1) with
  | Some (er, eg, eb), Some (lr, lg, lb), Some (hr, hg, hb) =>
      [diff er lr hr; diff eg lg hg; diff eb lb hb]
  | _, _, _ => []
  end.

End Reduce.

(** ** Stand-ins for the colormath transforms

    The real sRGB/XYZ/Lab transforms use a 2.4 power and a cube root, which
    leave the rationals.  The instances below are rational stand-ins on which
    the definitions run; the general theorems never depend on them. *)

Module Opponent.

(** The usual sextant formula for HSV, hue in degrees. *)
Definition sextant_HSV_to_RGB (c : HSV) : sRGB :=
  let H := hsv_h c in
  let S := hsv_s c in
  let V := hsv_v c in
  let h_floored := Num.floor H in
  let h_sub_i := ((h_floored / 60) mod 6)%Z in
  let var_f := H / 60%Z - Num.ofZ (h_floored / 60) in
  let var_p := V * (1 - S) in
  let var_q := V * (1 - var_f * S) in
  let var_t := V * (1 - (1 - var_f) * S) in
  match h_sub_i with
  | 0%Z => sRGBColor V var_t var_p
  | 1%Z => sRGBColor var_q V var_p
  | 2%Z => sRGBColor var_p V var_t
  | 3%Z => sRGBColor var_p var_q V
  | 4%Z => sRGBColor var_t var_p V
  | _ => sRGBColor V var_p var_q
  end.

(** A linear opponent-colour space: lightness from green, one axis
    red against green, one green against blue.  It has the shape of
    CIE Lab with the companding function replaced by the identity. *)
Definition linear_RGB_to_Lab (c : sRGB) : Lab :=
  LabColor (100%Z * rgb_g c)
           (500%Z * (rgb_r c - rgb_g c))
           (200%Z * (rgb_g c - rgb_b c)).

Definition linear_Lab_to_RGB (c : Lab) : sRGB :=
  sRGBColor (lab_l c / 100%Z + lab_a c / 500%Z)
            (lab_l c / 100%Z)
            (lab_l c / 100%Z - lab_b c / 200%Z).

#[export] Instance linear : ColorMath := {|
  HSV_to_RGB := sextant_HSV_to_RGB;
  RGB_to_Lab := linear_RGB_to_Lab;
  Lab_to_RGB := linear_Lab_to_RGB
|}.

(** A display on which no Lab colour can be shown: every conversion to
    RGB lands outside the unit cube.  It realises the situation in which
    the bisection finds nothing safe. *)
Definition outside : ColorMath := {|
  HSV_to_RGB := sextant_HSV_to_RGB;
  RGB_to_Lab := linear_RGB_to_Lab;
  Lab_to_RGB := fun _ => sRGBColor 2%Z 2%Z 2%Z
|}.

End Opponent.

(** A pair of conversions that agree on the grays but are not inverse to
    each other on colours, as conversions that pass through different
    reference whites are: the luminance read from an RGB colour weighs the
    three channels, while the conversion from Lab places the luminance on
    the green channel alone. *)

Module Mismatch.



End Mismatch.

(** ** The Lab colour inside the lookup

    [mid_lab] of [color_lookup_sRGBColor], before it is converted: the
    colour the scan interpolates, if it stops at an interval whose scalars
    differ. *)

Module MidLab.
Import Viridis.

Definition interpolate_lab (low high : sample) (x : Qc) : option Lab :=
  let low_scalar := scalar low in
  let high_scalar := scalar high in
  let low_lab := lab_values low in
  let high_lab := lab_values high in
  if Qc_eq_dec (high_scalar - low_scalar) 0 then None
  else
    let interp := (x - low_scalar) / (high_scalar - low_scalar) in
    Some (LabColor (interp * (lab_l high_lab - lab_l low_lab) + lab_l low_lab)
                   (interp * (lab_a high_lab - lab_a low_lab) + lab_a low_lab)
                   (interp * (lab_b high_lab - lab_b low_lab) + lab_b low_lab)).

Fixpoint mid_lab (data : list sample) (x : Qc) : option Lab :=
  match data with
  | low :: (high :: _) as rest =>
      if scalar high <? x then mid_lab rest x
      else interpolate_lab low high x
  | _ => None
  end.

End MidLab.

(** ** Small tables on which the lookup is evaluated *)

Module Tables.
Import Viridis.

Definition half : Qc := Q2Qc (1 # 2).

Definition dark_red : sRGB := sRGBColor half 0 0.
Definition dark_green : sRGB := sRGBColor 0 half 0.

(** [RGBPoints] of a two-sample ramp from dark red at 0 to dark green
    at 1. *)
Definition unit_points : list Qc := [0; half; 0; 0; 1; 0; half; 0].

(** The same colours at the scalars -1 and 1. *)
Definition signed_points : list Qc := [Num.ofZ (-1); half; 0; 0; 1; 0; half; 0].

(** Two samples that share the scalar 0. *)
Definition tied_points : list Qc := [0; half; 0; 0; 0; 0; half; 0].

(** Two samples with the scalars in descending order. *)
Definition reversed_points : list Qc := [1; half; 0; 0; 0; 0; half; 0].

(** The data frame the notebook builds from a list of points. *)
Definition table (points : list Qc) : list sample :=
  match load (CM := Opponent.linear) points with
  | Some data => data
  | None => []
  end.

End Tables.

(** ** Predicates the specification speaks of *)

Module Words.

(** "every channel lies in [0,1]" *)
Definition in_gamut (c : sRGB) : Prop :=
  (0 <= rgb_r c /\ rgb_r c <= 1) /\
  (0 <= rgb_g c /\ rgb_g c <= 1) /\
  (0 <= rgb_b c /\ rgb_b c <= 1).

(** A channel whose rounded byte value stays within 0..255. *)
Definition rounds_to_byte (v : Qc) : Prop :=
  Q2Qc (-1 # 510) <= v /\ v < Q2Qc (511 # 510).

(** "linearly interpolate ... by t" *)
Definition lerp (low high t : Qc) : Qc := low + t * (high - low).

Definition lerp_lab (low high : Lab) (t : Qc) : Lab :=
  LabColor (lerp (lab_l low) (lab_l high) t)
           (lerp (lab_a low) (lab_a high) t)
           (lerp (lab_b low) (lab_b high) t).

Definition scalars (data : list Viridis.sample) : list Qc :=
  map Viridis.scalar data.

(** The first and the last scalar of a table.  The values given for the
    empty table are such that it is not a ramp. *)
Definition first_scalar (data : list Viridis.sample) : Qc :=
  hd 1 (scalars data).

Definition last_scalar (data : list Viridis.sample) : Qc :=
  last (scalars data) 0.

(** "strictly increasing by scalar" *)
Definition increasing (data : list Viridis.sample) : Prop :=
  Sorted Qclt (scalars data).

(** A Ramp: "strictly increasing by scalar, with scalar[0] == 0.0 and
    scalar[last] == 1.0". *)
Definition ramp (data : list Viridis.sample) : Prop :=
  increasing data /\ first_scalar data = 0 /\ last_scalar data = 1.

(** "taking every other point": the entries at the even positions. *)
Fixpoint every_other {A : Type} (l : list A) : list A :=
  match l with
  | [] => []
  | x :: rest =>
      x :: match rest with
           | [] => []
           | _ :: rest' => every_other rest'
           end
  end.

(** The channels of a colour as plain fractions, for reading off
    evaluated results. *)
Definition channels (c : sRGB) : Q * Q * Q :=
  (this (rgb_r c), this (rgb_g c), this (rgb_b c)).

Definition outcome_channels (o : Viridis.outcome) : option (Q * Q * Q) :=
  match o with
  | Viridis.Color c => Some (channels c)
  | Viridis.ZeroDivision => None
  end.

(** Two colours agree "within a tolerance" on every channel. *)
Definition within (eps : Qc) (c1 c2 : sRGB) : Prop :=
  (rgb_r c1 - rgb_r c2 <= eps /\ rgb_r c2 - rgb_r c1 <= eps) /\
  (rgb_g c1 - rgb_g c2 <= eps /\ rgb_g c2 - rgb_g c1 <= eps) /\
  (rgb_b c1 - rgb_b c2 <= eps /\ rgb_b c2 - rgb_b c1 <= eps).

End Words.

(** ** Predicates used for the derived tables *)

Module Ranges.

(** A triple of byte values, each within 0..255. *)
Definition byte_triple (t : Z * Z * Z) : Prop :=
  let '(r, g, b) := t in
  (0 <= r <= 255)%Z /\ (0 <= g <= 255)%Z /\ (0 <= b <= 255)%Z.


(** The Lab luminances of the samples of a table, and a table along
    which they never decrease. *)
Definition luminances (data : list Viridis.sample) : list Qc :=
  map (fun s => lab_l (Viridis.lab_values s)) data.

Definition brightening (data : list Viridis.sample) : Prop :=
  Sorted Qcle (luminances data).

End Ranges.

(** * Properties *)

(** ** Arithmetic on canonical rationals *)

Module NumFacts.

Lemma this_ofZ (z : Z) : (this (Num.ofZ z) == inject_Z z)%Q.
Proof. unfold Num.ofZ, Q2Qc; cbn [this]. apply Qred_correct. Qed.

Lemma ofZ_add (a b : Z) : Num.ofZ (a + b) = Num.ofZ a + Num.ofZ b.
Proof.
  apply Qc_is_canon. unfold Num.ofZ, Qcplus, Q2Qc; cbn [this].
  rewrite !Qred_correct, inject_Z_plus. reflexivity.
Qed.

Lemma ofZ_mul (a b : Z) : Num.ofZ (a * b) = Num.ofZ a * Num.ofZ b.
Proof.
  apply Qc_is_canon. unfold Num.ofZ, Qcmult, Q2Qc; cbn [this].
  rewrite !Qred_correct, inject_Z_mult. reflexivity.
Qed.

Lemma ofZ_inj (a b : Z) : Num.ofZ a = Num.ofZ b -> a = b.
Proof.
  intros H. apply (f_equal this) in H.
  assert (E : (inject_Z a == inject_Z b)%Q) by now rewrite <- !this_ofZ, H.
  unfold Qeq, inject_Z in E; cbn in E. lia.
Qed.

Lemma ofZ_0 : Num.ofZ 0 = 0.
Proof. apply Qc_is_canon. reflexivity. Qed.

Lemma ofZ_1 : Num.ofZ 1 = 1.
Proof. apply Qc_is_canon. reflexivity. Qed.

Lemma ofZ_neq0 (a : Z) : a <> 0%Z -> Num.ofZ a <> 0.
Proof. intros Ha H. apply Ha, ofZ_inj. now rewrite ofZ_0. Qed.

Lemma ofZ_le (a b : Z) : (a <= b)%Z <-> Num.ofZ a <= Num.ofZ b.
Proof. unfold Qcle. rewrite !this_ofZ, Zle_Qle. reflexivity. Qed.

Lemma ofZ_lt (a b : Z) : (a < b)%Z <-> Num.ofZ a < Num.ofZ b.
Proof. unfold Qclt. rewrite !this_ofZ, Zlt_Qlt. reflexivity. Qed.

Lemma leb_le (x y : Qc) : (x <=? y) = true <-> x <= y.
Proof. unfold Num.leb, Qcle. apply Qle_bool_iff. Qed.

Lemma leb_gt (x y : Qc) : (x <=? y) = false <-> y < x.
Proof.
  rewrite <- not_true_iff_false, leb_le. split.
  - apply Qcnot_le_lt.
  - intros H H'. exact (Qclt_not_le _ _ H H').
Qed.

Lemma ltb_lt (x y : Qc) : (x <? y) = true <-> x < y.
Proof. unfold Num.ltb. rewrite negb_true_iff. apply leb_gt. Qed.

Lemma ltb_ge (x y : Qc) : (x <? y) = false <-> y <= x.
Proof. unfold Num.ltb. rewrite negb_false_iff. apply leb_le. Qed.

Lemma inv_pos (x : Qc) : 0 < x -> 0 < / x.
Proof.
  unfold Qclt. change (this 0) with 0%Q. intros H.
  unfold Qcinv, Q2Qc; cbn [this]. rewrite Qred_correct.
  now apply Qinv_lt_0_compat.
Qed.

End NumFacts.


(** ** The bisection of [scale_hue] *)

Module Bisection.
Import NumFacts.
Import Num.

Lemma pow2_neq0 (i : nat) : Num.ofZ (2 ^ Z.of_nat i) <> 0.
Proof. apply ofZ_neq0. apply Z.pow_nonzero; lia. Qed.

Lemma pow2_succ (i : nat) :
  Num.ofZ (2 ^ Z.of_nat (S i)) = Num.ofZ 2 * Num.ofZ (2 ^ Z.of_nat i).
Proof. rewrite <- ofZ_mul. f_equal. rewrite Nat2Z.inj_succ, Z.pow_succ_r; lia. Qed.

Lemma ofZ_2_neq0 : Num.ofZ 2 <> 0.
Proof. apply ofZ_neq0. lia. Qed.

Lemma dyadic_0 (k : Z) : dyadic 0 k = Num.ofZ k.
Proof.
  unfold dyadic. change (2 ^ Z.of_nat 0)%Z with 1%Z. rewrite ofZ_1.
  field. discriminate.
Qed.

Lemma dyadic_double (i : nat) (k : Z) : dyadic i k = dyadic (S i) (2 * k).
Proof.
  unfold dyadic. rewrite pow2_succ, ofZ_mul. field.
  split; [apply pow2_neq0 | apply ofZ_2_neq0].
Qed.

Lemma dyadic_mid (i : nat) (k : Z) :
  (dyadic i (k + 1) - dyadic i k) / Num.ofZ 2 + dyadic i k
  = dyadic (S i) (2 * k + 1).
Proof.
  unfold dyadic. rewrite pow2_succ, !ofZ_add, ofZ_mul, ofZ_1. field.
  split; [apply pow2_neq0 | apply ofZ_2_neq0].
Qed.

Lemma dyadic_eq0 (i : nat) (k : Z) : dyadic i k = 0 -> k = 0%Z.
Proof.
  unfold dyadic. intros H. apply ofZ_inj. rewrite ofZ_0.
  rewrite <- (Qcmult_div_r (Num.ofZ k) (Num.ofZ (2 ^ Z.of_nat i))) by apply pow2_neq0.
  rewrite H. ring.
Qed.

Lemma dyadic_le (i : nat) (j k : Z) : (j <= k)%Z -> dyadic i j <= dyadic i k.
Proof.
  intros H. unfold dyadic, Qcdiv. apply Qcmult_le_compat_r.
  - exact (proj1 (ofZ_le j k) H).
  - assert (Hp : 0 < Num.ofZ (2 ^ Z.of_nat i)).
    { rewrite <- ofZ_0. apply (proj1 (ofZ_lt _ _)). apply Z.pow_pos_nonneg; lia. }
    apply Qclt_le_weak, inv_pos, Hp.
Qed.

Section Loop.
Variable safe : Qc -> bool.

(** The loop keeps [low_scale = k/2^i] and [high_scale = (k+1)/2^i],
    and [low_scale] is either still the initial 0 or a midpoint that
    passed the test. *)
Lemma bisect_dyadic (n i : nat) (k : Z) :
  (0 <= k < 2 ^ Z.of_nat i)%Z ->
  (k = 0%Z \/ safe (dyadic i k) = true) ->
  exists k' : Z,
    (0 <= k' < 2 ^ Z.of_nat (i + n))%Z /\
    Kindlmann.bisect safe n (dyadic i k) (dyadic i (k + 1))
    = (dyadic (i + n) k', dyadic (i + n) (k' + 1)) /\
    (k' = 0%Z \/ safe (dyadic (i + n) k') = true).
Proof.
  revert i k. induction n as [|n IH]; intros i k Hk Hs.
  - exists k. rewrite Nat.add_0_r. auto.
  - cbn [Kindlmann.bisect]. rewrite dyadic_mid.
    assert (Hp : (2 ^ Z.of_nat (S i) = 2 * 2 ^ Z.of_nat i)%Z)
      by (rewrite Nat2Z.inj_succ, Z.pow_succ_r; lia).
    replace (i + S n)%nat with (S i + n)%nat by lia.
    destruct (safe (dyadic (S i) (2 * k + 1))) eqn:Hmid.
    + replace (dyadic i (k + 1)) with (dyadic (S i) (2 * k + 1 + 1))
        by (rewrite (dyadic_double i (k + 1)); f_equal; lia).
      apply IH; [lia | auto].
    + rewrite (dyadic_double i k).
      apply IH; [lia |].
      destruct Hs as [-> | Hs]; [left; lia | right].
      now rewrite <- dyadic_double.
Qed.
End Loop.

End Bisection.

Section ChromaScale.
Import NumFacts Num Bisection.
Context {CM : ColorMath}.

Lemma chroma_scale_dyadic (hue scalar : Qc) :
  exists k : Z,
    (0 <= k <= 4095)%Z /\
    Kindlmann.chroma_scale hue scalar = dyadic 12 k /\
    (k = 0%Z \/
     Kindlmann.safe_color (Kindlmann.scaled_lab hue scalar (dyadic 12 k)) = true).
Proof.
  unfold Kindlmann.chroma_scale.
  set (safe := fun mid_scale : Qc => _).
  destruct (bisect_dyadic safe 12 0 0) as (k & Hk & Hb & Hs).
  - cbn. lia.
  - now left.
  - change (0 + 1)%Z with 1%Z in Hb. rewrite !dyadic_0, ofZ_0, ofZ_1 in Hb.
    exists k. rewrite Hb. cbn [fst].
    change (2 ^ Z.of_nat (0 + 12))%Z with 4096%Z in Hk.
    repeat split; [lia | lia | exact Hs].
Qed.

Lemma dyadic12_top : dyadic 12 4095 = 1 - 1 / Num.ofZ 4096.
Proof. apply Qc_is_canon. reflexivity. Qed.

Lemma dyadic12_bottom : dyadic 12 0 = 0.
Proof. apply Qc_is_canon. reflexivity. Qed.

Lemma below_one : 1 - 1 / Num.ofZ 4096 < 1.
Proof. reflexivity. Qed.

(** C9.  For a scalar strictly between 0 and 1, the chroma scale left by
    the 12 rounds of bisection is [k / 4096] for an integer [k] between 0
    and 4095, hence lies in [0, 1 - 2^-12]; when it is not zero, the Lab
    colour built from it is one the loop tested and found safe; and it is
    never 1, whatever the safe-colour test answers. *)
Theorem chroma_scale_grid (hue scalar : Qc) :
  0 < scalar -> scalar < 1 ->
  let scale := Kindlmann.chroma_scale hue scalar in
  (exists k : Z, (0 <= k <= 4095)%Z /\ scale = Num.ofZ k / Num.ofZ (2 ^ 12)) /\
  (0 <= scale /\ scale <= 1 - 1 / Num.ofZ (2 ^ 12)) /\
  (scale <> 0 ->
   Kindlmann.safe_color
     (LabColor (100%Z * scalar)
               (scale * lab_a (to_Lab (to_sRGB (HSVColor hue 1 1))))
               (scale * lab_b (to_Lab (to_sRGB (HSVColor hue 1 1))))) = true) /\
  scale <> 1.
Proof.
  intros _ _ scale.
  destruct (chroma_scale_dyadic hue scalar) as (k & Hk & Hscale & Hsafe).
  fold scale in Hscale.
  assert (Hlo : 0 <= scale).
  { rewrite Hscale, <- dyadic12_bottom. apply dyadic_le. lia. }
  assert (Hhi : scale <= 1 - 1 / Num.ofZ (2 ^ 12)).
  { rewrite Hscale. change (2 ^ 12)%Z with 4096%Z.
    rewrite <- dyadic12_top. apply dyadic_le. lia. }
  repeat split; trivial.
  - exists k. split; [exact Hk | exact Hscale].
  - intros Hnz. destruct Hsafe as [-> | Hsafe].
    + rewrite Hscale, dyadic12_bottom in Hnz. now elim Hnz.
    + rewrite <- Hscale in Hsafe. exact Hsafe.
  - intros H1. rewrite H1 in Hhi.
    exact (Qclt_not_le _ _ below_one Hhi).
Qed.

End ChromaScale.

(** The theorem at hue 270 and scalar 1/2, on the linear stand-in. *)
Lemma chroma_scale_grid_at_half :
  let scale := Kindlmann.chroma_scale (CM := Opponent.linear) 270%Z (Q2Qc (1 # 2)) in
  (exists k : Z, (0 <= k <= 4095)%Z /\ scale = Num.ofZ k / Num.ofZ (2 ^ 12)) /\
  (0 <= scale /\ scale <= 1 - 1 / Num.ofZ (2 ^ 12)) /\
  (scale <> 0 ->
   Kindlmann.safe_color (CM := Opponent.linear)
     (LabColor (100%Z * Q2Qc (1 # 2))
        (scale * lab_a (to_Lab (CM := Opponent.linear)
                          (to_sRGB (CM := Opponent.linear) (HSVColor 270%Z 1 1))))
        (scale * lab_b (to_Lab (CM := Opponent.linear)
                          (to_sRGB (CM := Opponent.linear) (HSVColor 270%Z 1 1))))) = true) /\
  scale <> 1.
Proof.
  apply (chroma_scale_grid (CM := Opponent.linear) 270%Z (Q2Qc (1 # 2))); reflexivity.
Defined.

(** ** The in-gamut test *)

Section ValidColor.
Import NumFacts Words.
Context {CM : ColorMath}.

Lemma floor_nonneg (q : Q) : (0 <= Qfloor q)%Z <-> (0 <= q)%Q.
Proof.
  split; intros H.
  - apply Qle_trans with (inject_Z (Qfloor q)); [| apply Qfloor_le].
    change 0%Q with (inject_Z 0). rewrite <- Zle_Qle. exact H.
  - change 0%Z with (Qfloor 0). now apply Qfloor_resp_le.
Qed.

Lemma floor_le_255 (q : Q) : (Qfloor q <= 255)%Z <-> (q < 256)%Q.
Proof.
  split; intros H.
  - apply Qlt_le_trans with (inject_Z (Qfloor q + 1)); [apply Qlt_floor |].
    change 256%Q with (inject_Z 256). rewrite <- Zle_Qle. lia.
  - destruct (Z_le_gt_dec (Qfloor q) 255) as [Hle | Hgt]; [exact Hle | exfalso].
    assert (H' : (inject_Z 256 <= q)%Q).
    { apply Qle_trans with (inject_Z (Qfloor q)); [| apply Qfloor_le].
      rewrite <- Zle_Qle. lia. }
    change (inject_Z 256) with 256%Q in H'. lra.
Qed.

Lemma upscale_byte (v : Qc) :
  (0 <= upscale v)%Z /\ (upscale v <= 255)%Z <-> rounds_to_byte v.
Proof.
  unfold upscale, Num.floor, rounds_to_byte.
  rewrite floor_nonneg, floor_le_255.
  qc_to_q. unfold inject_Z. split; intros [H1 H2]; split; lra.
Qed.

Lemma in_unit_rounds (v : Qc) : 0 <= v -> v <= 1 -> rounds_to_byte v.
Proof. unfold rounds_to_byte. intros H0 H1. split; qc_lra. Qed.

(** C5, as the code has it.  [valid_color] compares the rounded byte
    values with 0 and 255: it answers true exactly when every channel
    rounds into 0..255, that is when every channel lies in
    [-1/510, 1 + 1/510).  Every colour with all channels in [0,1] passes. *)
Theorem valid_color_rounded (c : color) :
  (Kindlmann.valid_color c = true <->
   rounds_to_byte (rgb_r (to_sRGB c)) /\
   rounds_to_byte (rgb_g (to_sRGB c)) /\
   rounds_to_byte (rgb_b (to_sRGB c))) /\
  (in_gamut (to_sRGB c) -> Kindlmann.valid_color c = true).
Proof.
  assert (E : Kindlmann.valid_color c = true <->
              rounds_to_byte (rgb_r (to_sRGB c)) /\
              rounds_to_byte (rgb_g (to_sRGB c)) /\
              rounds_to_byte (rgb_b (to_sRGB c))).
  { unfold Kindlmann.valid_color, get_upscaled_value_tuple.
    rewrite !andb_true_iff, !Z.leb_le, <- !upscale_byte. tauto. }
  split; [exact E |].
  intros [[? ?] [[? ?] [? ?]]]. apply E.
  repeat split; apply in_unit_rounds; assumption.
Qed.
End ValidColor.

(** C5, as the specification words it, fails: a red channel of 1.001 is
    outside [0,1], yet its byte value is 255 and [valid_color] accepts it. *)
Lemma valid_color_accepts_out_of_gamut :
  let c := sRGBColor (Q2Qc (1001 # 1000)) 0 0 in
  Kindlmann.valid_color (CM := Opponent.linear) c = true /\
  get_upscaled_value_tuple c = (255, 0, 0)%Z /\
  ~ Words.in_gamut (to_sRGB (CM := Opponent.linear) c) /\
  ~ (Kindlmann.valid_color (CM := Opponent.linear) c = true <->
     Words.in_gamut (to_sRGB (CM := Opponent.linear) c)).
Proof.
  assert (N : ~ Words.in_gamut (sRGBColor (Q2Qc (1001 # 1000)) 0 0)).
  { intros [[_ H] _]. revert H. cbn. unfold Qcle, Qle. cbn. lia. }
  cbn zeta. repeat split; try reflexivity; try exact N.
  intros [H _]. apply N, H. reflexivity.
Qed.

(** ** The hue sweep *)

Section ScaleHue.
Import NumFacts Num Bisection.
Context {CM : ColorMath}.

Lemma scale_hue_low (hue scalar : Qc) :
  scalar <= 0 -> Kindlmann.scale_hue hue scalar = black.
Proof.
  intros H. unfold Kindlmann.scale_hue.
  now rewrite (proj2 (leb_le scalar 0) H).
Qed.

Lemma scale_hue_high (hue scalar : Qc) :
  1 <= scalar -> Kindlmann.scale_hue hue scalar = white.
Proof.
  intros H. unfold Kindlmann.scale_hue.
  rewrite (proj2 (leb_le 1 scalar) H).
  destruct (scalar <=? 0) eqn:E; [| reflexivity].
  apply leb_le in E. exfalso.
  now apply (Qcle_trans _ _ _ H) in E.
Qed.

Lemma scale_hue_inside (hue scalar : Qc) :
  0 < scalar -> scalar < 1 ->
  Kindlmann.scale_hue hue scalar
  = to_sRGB (Kindlmann.scaled_lab hue scalar (Kindlmann.chroma_scale hue scalar)).
Proof.
  intros H0 H1. unfold Kindlmann.scale_hue.
  now rewrite (proj2 (leb_gt scalar 0) H0), (proj2 (leb_gt 1 scalar) H1).
Qed.

(** When every midpoint is refused, the upper end is halved each round
    and the lower end stays at 0. *)
Lemma bisect_all_unsafe (safe : Qc -> bool) (n i : nat) :
  (forall j : nat, (i < j <= i + n)%nat -> safe (dyadic j 1) = false) ->
  Kindlmann.bisect safe n 0 (dyadic i 1) = (0, dyadic (i + n) 1).
Proof.
  revert i. induction n as [|n IH]; intros i H.
  - now rewrite Nat.add_0_r.
  - cbn [Kindlmann.bisect].
    assert (E : (dyadic i 1 - 0) / Num.ofZ 2 + 0 = dyadic (S i) 1).
    { assert (M := dyadic_mid i 0).
      change (0 + 1)%Z with 1%Z in M. change (2 * 0 + 1)%Z with 1%Z in M.
      assert (Z0 : dyadic i 0 = 0)
        by (unfold dyadic; rewrite ofZ_0; field; apply pow2_neq0).
      now rewrite <- M, Z0. }
    rewrite E, H by lia.
    replace (i + S n)%nat with (S i + n)%nat by lia.
    apply IH. intros j Hj. apply H. lia.
Qed.

(** C3, as the code has it.  [scale_hue] has no failure path.  For a
    scalar strictly between 0 and 1, when none of the twelve probed
    scales 1/2, 1/4, ..., 2^-12 is safe, the search is left with scale 0
    and the gray Lab colour at the target luminance is converted and
    returned; scale 0 itself is never put to the safe-colour test. *)
Theorem scale_hue_gray_fallback (hue scalar : Qc) :
  0 < scalar -> scalar < 1 ->
  (forall j : nat, (1 <= j <= 12)%nat ->
     Kindlmann.safe_color (Kindlmann.scaled_lab hue scalar (dyadic j 1)) = false) ->
  Kindlmann.chroma_scale hue scalar = 0 /\
  Kindlmann.scale_hue hue scalar = to_sRGB (LabColor (100%Z * scalar) 0 0).
Proof.
  intros H0 H1 Hun.
  assert (E : Kindlmann.chroma_scale hue scalar = 0).
  { unfold Kindlmann.chroma_scale.
    set (safe := fun mid_scale : Qc => _).
    assert (D : dyadic 0 1 = 1) by (rewrite dyadic_0; apply ofZ_1).
    rewrite <- D, (bisect_all_unsafe safe 12 0); [reflexivity |].
    intros j Hj. apply Hun. lia. }
  split; [exact E |].
  rewrite scale_hue_inside, E by assumption.
  unfold Kindlmann.scaled_lab. now rewrite !Qcmult_0_l.
Qed.
End ScaleHue.

Lemma outside_never_safe (c : Lab) :
  Kindlmann.safe_color (CM := Opponent.outside) c = false.
Proof. reflexivity. Qed.

(** The fallback at hue 270 and scalar 1/2, on a display where nothing is
    safe. *)
Lemma scale_hue_gray_fallback_outside :
  Kindlmann.chroma_scale (CM := Opponent.outside) 270%Z (Q2Qc (1 # 2)) = 0 /\
  Kindlmann.scale_hue (CM := Opponent.outside) 270%Z (Q2Qc (1 # 2))
  = to_sRGB (CM := Opponent.outside) (LabColor (100%Z * Q2Qc (1 # 2)) 0 0).
Proof.
  apply (scale_hue_gray_fallback (CM := Opponent.outside) 270%Z (Q2Qc (1 # 2))).
  - reflexivity.
  - reflexivity.
  - intros j _. apply outside_never_safe.
Defined.

(** C3, as the specification words it, fails: with the gray colour at the
    target luminance unsafe and every probed scale unsafe, [scale_hue] still
    returns a colour, here one outside the gamut. *)
Lemma scale_hue_does_not_abort :
  let scalar := Q2Qc (1 # 2) in
  Kindlmann.safe_color (CM := Opponent.outside) (LabColor (100%Z * scalar) 0 0) = false /\
  (forall scale : Qc,
     Kindlmann.safe_color (CM := Opponent.outside)
       (Kindlmann.scaled_lab (CM := Opponent.outside) 270%Z scalar scale) = false) /\
  Kindlmann.scale_hue (CM := Opponent.outside) 270%Z scalar = sRGBColor 2%Z 2%Z 2%Z /\
  Kindlmann.valid_color (CM := Opponent.outside)
    (Kindlmann.scale_hue (CM := Opponent.outside) 270%Z scalar) = false.
Proof.
  cbn zeta. split; [apply outside_never_safe |].
  split; [intros scale; apply outside_never_safe |].
  assert (E : Kindlmann.scale_hue (CM := Opponent.outside) 270%Z (Q2Qc (1 # 2))
              = sRGBColor 2%Z 2%Z 2%Z).
  { rewrite (scale_hue_inside (CM := Opponent.outside)) by reflexivity. reflexivity. }
  split; [exact E |]. rewrite E. reflexivity.
Qed.

(** ** The interpolated lookup *)

Import Viridis.

Section Lookup.
Import NumFacts Num Words.
Context {CM : ColorMath}.

Lemma increasing_inv (low high : sample) (rest : list sample) :
  increasing (low :: high :: rest) ->
  scalar low < scalar high /\ increasing (high :: rest).
Proof.
  unfold increasing, scalars. cbn [map]. intros H.
  inversion H as [| ? ? Hs Hr]; subst.
  inversion Hr; subst. split; assumption.
Qed.

Lemma increasing_le_last (low : sample) (rest : list sample) :
  increasing (low :: rest) -> scalar low <= last_scalar (low :: rest).
Proof.
  revert low. induction rest as [| high rest IH]; intros low H.
  - apply Qcle_refl.
  - apply increasing_inv in H as [Hlt Hinc].
    apply Qcle_trans with (scalar high).
    + now apply Qclt_le_weak.
    + exact (IH high Hinc).
Qed.

Lemma lt_neq_sub (a b : Qc) : a < b -> b - a <> 0.
Proof.
  intros H E. assert (b = a) by (rewrite <- (Qcplus_0_l a), <- E; ring).
  subst b. exact (Qclt_not_le _ _ H (Qcle_refl a)).
Qed.

Lemma interpolate_lerp (low high : sample) (x : Qc) :
  scalar low < scalar high ->
  interpolate low high x
  = Color (to_sRGB (lerp_lab (lab_values low) (lab_values high)
                      ((x - scalar low) / (scalar high - scalar low)))).
Proof.
  intros H. unfold interpolate.
  destruct (Qc_eq_dec (scalar high - scalar low) 0) as [E | _].
  - now apply lt_neq_sub in H.
  - unfold lerp_lab, lerp. do 3 f_equal. f_equal; ring.
Qed.

Lemma scan_step (low high : sample) (rest : list sample) (x : Qc) :
  scan (low :: high :: rest) x
  = if scalar high <? x then scan (high :: rest) x else interpolate low high x.
Proof. reflexivity. Qed.

(** The interval at which the scan stops, when it stops inside the table. *)
Lemma selected_scan (data : list sample) (x : Qc) :
  scan data x
  = match selected data x with
    | Some (low, high) => interpolate low high x
    | None => Color (sRGBColor 1 1 1)
    end.
Proof.
  induction data as [| low [| high rest] IH]; try reflexivity.
  rewrite scan_step. cbn [selected].
  destruct (scalar high <? x); [exact IH | reflexivity].
Qed.

Lemma selected_increasing (data : list sample) (x : Qc) (low high : sample) :
  increasing data -> selected data x = Some (low, high) ->
  scalar low < scalar high.
Proof.
  induction data as [| l [| h rest] IH]; intros Hinc Hsel; try discriminate.
  apply increasing_inv in Hinc as [Hlt Hinc].
  cbn [selected] in Hsel. destruct (scalar h <? x).
  - exact (IH Hinc Hsel).
  - now inversion Hsel; subst.
Qed.

Lemma scan_total (data : list sample) (x : Qc) :
  increasing data -> exists c : sRGB, scan data x = Color c.
Proof.
  intros Hinc. rewrite selected_scan.
  destruct (selected data x) as [[low high] |] eqn:Hsel.
  - rewrite interpolate_lerp by exact (selected_increasing _ _ _ _ Hinc Hsel).
    eexists; reflexivity.
  - eexists; reflexivity.
Qed.

Lemma lookup_negative (data : list sample) (x : Qc) :
  x < 0 -> color_lookup_sRGBColor data x = Color black.
Proof.
  intros H. unfold color_lookup_sRGBColor.
  now rewrite (proj2 (ltb_lt x 0) H).
Qed.

Lemma lookup_nonneg (data : list sample) (x : Qc) :
  0 <= x -> color_lookup_sRGBColor data x = scan data x.
Proof.
  intros H. unfold color_lookup_sRGBColor.
  now rewrite (proj2 (ltb_ge x 0) H).
Qed.

Lemma scan_beyond (data : list sample) (x : Qc) :
  increasing data -> last_scalar data < x -> scan data x = Color white.
Proof.
  induction data as [| low [| high rest] IH]; intros Hinc Hx; try reflexivity.
  apply increasing_inv in Hinc as [Hlt Hinc].
  change (last_scalar (low :: high :: rest))
    with (last_scalar (high :: rest)) in Hx.
  rewrite scan_step.
  assert (Hh : scalar high < x)
    by exact (Qcle_lt_trans _ _ _ (increasing_le_last _ _ Hinc) Hx).
  rewrite (proj2 (ltb_lt _ _) Hh). exact (IH Hinc Hx).
Qed.

(** Inside the table the scan stops at the first interval whose upper
    scalar is not below the query; that interval brackets the query. *)
Lemma scan_bracket (data : list sample) (x : Qc) :
  increasing data -> (2 <= length data)%nat ->
  first_scalar data <= x -> x <= last_scalar data ->
  exists (i : nat) (low high : sample),
    nth_error data i = Some low /\ nth_error data (S i) = Some high /\
    scalar low <= x /\ x <= scalar high /\
    (forall (j : nat) (h : sample),
       (j < i)%nat -> nth_error data (S j) = Some h -> scalar h < x) /\
    scan data x
    = Color (to_sRGB (lerp_lab (lab_values low) (lab_values high)
                        ((x - scalar low) / (scalar high - scalar low)))).
Proof.
  induction data as [| low [| high rest] IH]; intros Hinc Hlen Hlo Hhi;
    try (cbn in Hlen; lia).
  destruct (increasing_inv _ _ _ Hinc) as [Hlt Hinc'].
  rewrite scan_step. destruct (scalar high <? x) eqn:Hcmp.
  - apply ltb_lt in Hcmp.
    change (last_scalar (low :: high :: rest))
      with (last_scalar (high :: rest)) in Hhi.
    destruct rest as [| next rest].
    { exfalso. exact (Qclt_not_le _ _ Hcmp Hhi). }
    destruct (IH Hinc') as (i & lo & hi & Hi & HSi & Hl & Hh & Hfirst & Hscan).
    + cbn; lia.
    + now apply Qclt_le_weak.
    + exact Hhi.
    + exists (S i), lo, hi. repeat split; trivial.
      intros [| j] h Hj Hn.
      * cbn in Hn. now inversion Hn; subst.
      * apply (Hfirst j h); [lia | exact Hn].
  - apply ltb_ge in Hcmp.
    exists 0%nat, low, high. repeat split; trivial.
    + intros j h Hj. lia.
    + now apply interpolate_lerp.
Qed.

(** C6, as the code has it.  For a table with strictly increasing
    scalars: a negative query yields black; a query that is not negative
    and lies between the first and the last scalar of a table of at least
    two samples stops the scan at the first interval whose upper scalar is
    at least the query, that interval brackets the query, and the result
    is the RGB conversion of the Lab colour interpolated linearly with the
    fraction (x - low)/(high - low); a query that is not negative and
    exceeds the last scalar yields white. *)
Theorem lookup_cases (data : list sample) (x : Qc) :
  increasing data ->
  (x < 0 -> color_lookup_sRGBColor data x = Color black) /\
  (0 <= x -> (2 <= length data)%nat ->
   first_scalar data <= x -> x <= last_scalar data ->
   exists (i : nat) (low high : sample),
     nth_error data i = Some low /\ nth_error data (S i) = Some high /\
     scalar low <= x /\ x <= scalar high /\
     (forall (j : nat) (h : sample),
        (j < i)%nat -> nth_error data (S j) = Some h -> scalar h < x) /\
     color_lookup_sRGBColor data x
     = Color (to_sRGB (lerp_lab (lab_values low) (lab_values high)
                         ((x - scalar low) / (scalar high - scalar low))))) /\
  (0 <= x -> last_scalar data < x ->
   color_lookup_sRGBColor data x = Color white).
Proof.
  intros Hinc. split; [apply lookup_negative |]. split.
  - intros H0 Hlen Hlo Hhi. rewrite lookup_nonneg by exact H0.
    now apply scan_bracket.
  - intros H0 Hx. rewrite lookup_nonneg by exact H0.
    now apply scan_beyond.
Qed.

(** C10.  On a table with strictly increasing scalars, queried at or
    above its first scalar, the lookup returns a colour; the interval at
    which the scan stops, if any, has its upper scalar strictly above its
    lower one, so the denominator of the fraction is not zero. *)
Theorem lookup_no_zero_division (data : list sample) (x : Qc) :
  increasing data -> first_scalar data <= x ->
  (exists c : sRGB, color_lookup_sRGBColor data x = Color c) /\
  color_lookup_sRGBColor data x <> ZeroDivision /\
  (forall low high : sample,
     selected data x = Some (low, high) ->
     scalar low < scalar high /\ scalar high - scalar low <> 0).
Proof.
  intros Hinc _.
  assert (T : exists c : sRGB, color_lookup_sRGBColor data x = Color c).
  { unfold color_lookup_sRGBColor. destruct (x <? 0).
    - eexists; reflexivity.
    - now apply scan_total. }
  split; [exact T |]. split.
  - destruct T as [c ->]. discriminate.
  - intros low high Hsel.
    assert (Hlt := selected_increasing _ _ _ _ Hinc Hsel).
    split; [exact Hlt | now apply lt_neq_sub].
Qed.

Lemma read_points_RGBPoints (rows : list (Qc * sRGB)) :
  read_points (RGBPoints rows) = Some rows.
Proof.
  induction rows as [| [s [r g b]] rows IH]; [reflexivity |].
  cbn [RGBPoints flat_map app fst snd rgb_r rgb_g rgb_b read_points].
  fold (RGBPoints rows). now rewrite IH.
Qed.

(** C4, as the code has it.  The load loop checks nothing: the flat
    encoding of any sequence of samples, whatever the order of its scalars
    and whether or not some repeat, is loaded, and the scalars of the
    loaded table are those given, in the order given. *)
Theorem load_accepts_any_order (rows : list (Qc * sRGB)) :
  exists data : list sample,
    load (RGBPoints rows) = Some data /\
    scalars data = map fst rows /\
    map rgb_values data = map snd rows.
Proof.
  unfold load. rewrite read_points_RGBPoints.
  eexists; split; [reflexivity |].
  unfold scalars. rewrite !map_map. cbn [scalar rgb_values].
  split; reflexivity.
Qed.
End Lookup.

(** ** The ends of a ramp *)

Section Boundary.
Import NumFacts Num Words.
Context {CM : ColorMath}.

Lemma zero_neq_one : (0 : Qc) <> 1.
Proof. intros H. apply (f_equal this) in H. discriminate. Qed.

Lemma lerp_lab_0 (low high : Lab) : lerp_lab low high 0 = low.
Proof. destruct low. unfold lerp_lab, lerp; cbn. f_equal; ring. Qed.

Lemma lerp_lab_1 (low high : Lab) : lerp_lab low high 1 = high.
Proof. destruct high. unfold lerp_lab, lerp; cbn. f_equal; ring. Qed.

Lemma interpolate_at_low (low high : sample) :
  scalar low < scalar high ->
  interpolate low high (scalar low) = Color (to_sRGB (lab_values low)).
Proof.
  intros H. rewrite interpolate_lerp by exact H.
  replace ((scalar low - scalar low) / (scalar high - scalar low)) with 0
    by (field; now apply lt_neq_sub).
  now rewrite lerp_lab_0.
Qed.

Lemma interpolate_at_high (low high : sample) :
  scalar low < scalar high ->
  interpolate low high (scalar high) = Color (to_sRGB (lab_values high)).
Proof.
  intros H. rewrite interpolate_lerp by exact H.
  replace ((scalar high - scalar low) / (scalar high - scalar low)) with 1
    by (field; now apply lt_neq_sub).
  now rewrite lerp_lab_1.
Qed.

Lemma last_nonempty (A : Type) (a : A) (l : list A) (d d' : A) :
  last (a :: l) d = last (a :: l) d'.
Proof.
  revert a. induction l as [| b l IH]; intros a; [reflexivity |].
  change (last (b :: l) d = last (b :: l) d'). apply IH.
Qed.

Lemma scan_at_first (first : sample) (rest : list sample) :
  increasing (first :: rest) -> rest <> [] ->
  scan (first :: rest) (scalar first) = Color (to_sRGB (lab_values first)).
Proof.
  destruct rest as [| high rest]; intros Hinc Hne; [now elim Hne |].
  apply increasing_inv in Hinc as [Hlt _].
  rewrite scan_step, (proj2 (ltb_ge _ _) (Qclt_le_weak _ _ Hlt)).
  now apply interpolate_at_low.
Qed.

Lemma scan_at_last (first : sample) (rest : list sample) :
  increasing (first :: rest) -> rest <> [] ->
  scan (first :: rest) (last_scalar (first :: rest))
  = Color (to_sRGB (lab_values (last rest first))).
Proof.
  revert first. induction rest as [| high rest IH]; intros first Hinc Hne;
    [now elim Hne |].
  destruct (increasing_inv _ _ _ Hinc) as [Hlt Hinc'].
  change (last_scalar (first :: high :: rest)) with (last_scalar (high :: rest)).
  rewrite scan_step. destruct rest as [| next rest].
  - cbn [last_scalar scalars map last].
    rewrite (proj2 (ltb_ge _ _) (Qcle_refl _)).
    now apply interpolate_at_high.
  - assert (Hh : scalar high < last_scalar (high :: next :: rest)).
    { destruct (increasing_inv _ _ _ Hinc') as [Hlt' Hinc''].
      apply Qclt_le_trans with (scalar next); [exact Hlt' |].
      exact (increasing_le_last _ _ Hinc''). }
    rewrite (proj2 (ltb_lt _ _) Hh).
    rewrite (IH high Hinc') by discriminate.
    now rewrite (last_nonempty _ next rest high first).
Qed.

Lemma ramp_shape (data : list sample) :
  ramp data ->
  exists (first : sample) (rest : list sample),
    data = first :: rest /\ rest <> [] /\
    scalar first = 0 /\ last_scalar data = 1.
Proof.
  intros (Hinc & Hfirst & Hlast).
  destruct data as [| first rest].
  - cbn in Hfirst. now elim zero_neq_one.
  - exists first, rest. repeat split; trivial.
    intros ->. cbn in Hfirst, Hlast. apply zero_neq_one. congruence.
Qed.

Lemma load_lab_values (points : list Qc) (data : list sample) :
  load points = Some data ->
  Forall (fun s => lab_values s = to_Lab (rgb_values s)) data.
Proof.
  unfold load. destruct (read_points points) as [rows |]; [| discriminate].
  intros H. inversion H; subst. clear H.
  induction rows; constructor; auto.
Qed.

(** C2, as the code has it.  The hue sweep returns black at scalar 0
    and white at scalar 1, for every hue.  The interpolated lookup on a
    ramp (strictly increasing scalars, the first 0, the last 1) loaded
    from a list of points returns at 0 the first sample and at 1 the last
    sample, each taken to Lab and back; with exact conversions these are
    the colours of the first and of the last sample themselves. *)
Theorem boundary_colours (points : list Qc) (data : list sample) :
  load points = Some data -> ramp data ->
  (forall hue : Qc,
     Kindlmann.scale_hue hue 0 = black /\ Kindlmann.scale_hue hue 1 = white) /\
  exists (first : sample) (rest : list sample),
    data = first :: rest /\
    color_lookup_sRGBColor data 0
    = Color (to_sRGB (to_Lab (rgb_values first))) /\
    color_lookup_sRGBColor data 1
    = Color (to_sRGB (to_Lab (rgb_values (last rest first)))) /\
    (ColorMathLaws CM ->
     color_lookup_sRGBColor data 0 = Color (rgb_values first) /\
     color_lookup_sRGBColor data 1 = Color (rgb_values (last rest first))).
Proof.
  intros Hload Hramp. split.
  { intros hue. split.
    - apply scale_hue_low, Qcle_refl.
    - apply scale_hue_high, Qcle_refl. }
  assert (Hlab := load_lab_values _ _ Hload).
  destruct (ramp_shape _ Hramp) as (first & rest & -> & Hne & Hfirst & Hlast).
  destruct Hramp as (Hinc & _ & _).
  assert (L0 : lab_values first = to_Lab (rgb_values first))
    by now inversion Hlab.
  assert (L1 : lab_values (last rest first) = to_Lab (rgb_values (last rest first))).
  { rewrite Forall_forall in Hlab. apply Hlab.
    destruct rest as [| r rest]; [now elim Hne |].
    right. apply (exists_last (l := r :: rest)) in Hne as (l' & a & E).
    rewrite E, last_last. apply in_or_app. right. now left. }
  assert (E0 : color_lookup_sRGBColor (first :: rest) 0
               = Color (to_sRGB (to_Lab (rgb_values first)))).
  { rewrite lookup_nonneg by apply Qcle_refl.
    rewrite <- Hfirst at 1. rewrite scan_at_first by assumption.
    now rewrite L0. }
  assert (E1 : color_lookup_sRGBColor (first :: rest) 1
               = Color (to_sRGB (to_Lab (rgb_values (last rest first))))).
  { rewrite lookup_nonneg by (apply Qclt_le_weak; reflexivity).
    rewrite <- Hlast. rewrite scan_at_last by assumption.
    now rewrite L1. }
  exists first, rest. repeat split; trivial.
  - rewrite E0. cbn [to_sRGB to_Lab]. now rewrite RGB_Lab_RGB.
  - rewrite E1. cbn [to_sRGB to_Lab]. now rewrite RGB_Lab_RGB.
Qed.
End Boundary.

(** C4, as the specification words it, fails: a table with a repeated
    scalar and a table with descending scalars are both loaded, and lookups
    run on them; on the first the fraction has a zero denominator, on the
    second the scan falls through to white. *)
Lemma load_keeps_malformed_tables :
  (exists data : list sample,
     load (CM := Opponent.linear) Tables.tied_points = Some data /\
     Words.scalars data = [0; 0] /\
     ~ Words.increasing data /\
     color_lookup_sRGBColor (CM := Opponent.linear) data 0 = ZeroDivision) /\
  (exists data : list sample,
     load (CM := Opponent.linear) Tables.reversed_points = Some data /\
     Words.scalars data = [1; 0] /\
     ~ Words.increasing data /\
     color_lookup_sRGBColor (CM := Opponent.linear) data Tables.half = Color white).
Proof.
  split; eexists; (split; [reflexivity |]); (split; [reflexivity |]); split.
  - intros H. apply (increasing_inv _ _ _) in H as [H _]. revert H. now vm_compute.
  - reflexivity.
  - intros H. apply (increasing_inv _ _ _) in H as [H _]. revert H. now vm_compute.
  - reflexivity.
Qed.

(** The lookup theorems on the two-sample ramp from dark red to dark green,
    queried at 1/2. *)

Lemma unit_table_increasing : Words.increasing (Tables.table Tables.unit_points).
Proof. repeat constructor. Defined.

Lemma lookup_cases_unit_table :
  let data := Tables.table Tables.unit_points in
  let x := Tables.half in
  (x < 0 -> color_lookup_sRGBColor (CM := Opponent.linear) data x = Color black) /\
  (0 <= x -> (2 <= length data)%nat ->
   Words.first_scalar data <= x -> x <= Words.last_scalar data ->
   exists (i : nat) (low high : sample),
     nth_error data i = Some low /\ nth_error data (S i) = Some high /\
     scalar low <= x /\ x <= scalar high /\
     (forall (j : nat) (h : sample),
        (j < i)%nat -> nth_error data (S j) = Some h -> scalar h < x) /\
     color_lookup_sRGBColor (CM := Opponent.linear) data x
     = Color (to_sRGB (CM := Opponent.linear)
                (Words.lerp_lab (lab_values low) (lab_values high)
                   ((x - scalar low) / (scalar high - scalar low))))) /\
  (0 <= x -> Words.last_scalar data < x ->
   color_lookup_sRGBColor (CM := Opponent.linear) data x = Color white).
Proof.
  apply (lookup_cases (CM := Opponent.linear)
           (Tables.table Tables.unit_points) Tables.half).
  exact unit_table_increasing.
Defined.

Lemma lookup_no_zero_division_unit_table :
  let data := Tables.table Tables.unit_points in
  let x := Tables.half in
  (exists c : sRGB, color_lookup_sRGBColor (CM := Opponent.linear) data x = Color c) /\
  color_lookup_sRGBColor (CM := Opponent.linear) data x <> ZeroDivision /\
  (forall low high : sample,
     selected data x = Some (low, high) ->
     scalar low < scalar high /\ scalar high - scalar low <> 0).
Proof.
  apply (lookup_no_zero_division (CM := Opponent.linear)
           (Tables.table Tables.unit_points) Tables.half).
  - exact unit_table_increasing.
  - vm_compute. discriminate.
Defined.

(** C6, as the specification words it, fails: the table with scalars -1
    and 1 is strictly increasing and the query -1/2 lies between its first
    and last scalar, in its only interval; the interpolation there is
    (3/8, 1/8, 0), but the lookup answers black. *)
Lemma lookup_black_inside_table :
  let low := Sample (Num.ofZ (-1)) Tables.dark_red
               (to_Lab (CM := Opponent.linear) Tables.dark_red) in
  let high := Sample 1 Tables.dark_green
                (to_Lab (CM := Opponent.linear) Tables.dark_green) in
  let data := [low; high] in
  let x := - Tables.half in
  load (CM := Opponent.linear) Tables.signed_points = Some data /\
  Words.increasing data /\
  Words.first_scalar data <= x /\ x <= Words.last_scalar data /\
  x <= scalar high /\
  Words.channels (to_sRGB (CM := Opponent.linear)
                    (Words.lerp_lab (lab_values low) (lab_values high)
                       ((x - scalar low) / (scalar high - scalar low))))
  = (3 # 8, 1 # 8, 0)%Q /\
  color_lookup_sRGBColor (CM := Opponent.linear) data x = Color black /\
  color_lookup_sRGBColor (CM := Opponent.linear) data x
  <> Color (to_sRGB (CM := Opponent.linear)
              (Words.lerp_lab (lab_values low) (lab_values high)
                 ((x - scalar low) / (scalar high - scalar low)))).
Proof.
  cbn zeta. split; [reflexivity |].
  split; [repeat constructor |].
  split; [vm_compute; discriminate |].
  split; [vm_compute; discriminate |].
  split; [vm_compute; discriminate |].
  split; [vm_compute; reflexivity |].
  split; [reflexivity |].
  intros H. apply (f_equal Words.outcome_channels) in H.
  vm_compute in H. discriminate.
Qed.

Lemma unit_table_ramp : Words.ramp (Tables.table Tables.unit_points).
Proof. split; [exact unit_table_increasing | split; reflexivity]. Defined.

(** The boundary theorem on the two-sample ramp from dark red to dark
    green. *)
Lemma boundary_colours_unit_table :
  let data := Tables.table Tables.unit_points in
  (forall hue : Qc,
     Kindlmann.scale_hue (CM := Opponent.linear) hue 0 = black /\
     Kindlmann.scale_hue (CM := Opponent.linear) hue 1 = white) /\
  exists (first : sample) (rest : list sample),
    data = first :: rest /\
    color_lookup_sRGBColor (CM := Opponent.linear) data 0
    = Color (to_sRGB (CM := Opponent.linear)
               (to_Lab (CM := Opponent.linear) (rgb_values first))) /\
    color_lookup_sRGBColor (CM := Opponent.linear) data 1
    = Color (to_sRGB (CM := Opponent.linear)
               (to_Lab (CM := Opponent.linear) (rgb_values (last rest first)))) /\
    (ColorMathLaws Opponent.linear ->
     color_lookup_sRGBColor (CM := Opponent.linear) data 0 = Color (rgb_values first) /\
     color_lookup_sRGBColor (CM := Opponent.linear) data 1
     = Color (rgb_values (last rest first))).
Proof.
  apply (boundary_colours (CM := Opponent.linear) Tables.unit_points
           (Tables.table Tables.unit_points)).
  - reflexivity.
  - exact unit_table_ramp.
Defined.

(** C2, as the specification words it, fails for the interpolated lookup:
    on the ramp from dark red at 0 to dark green at 1 the lookup answers
    dark red at 0 and dark green at 1, not black and white. *)
Lemma lookup_ends_are_sample_colours :
  let data := Tables.table Tables.unit_points in
  load (CM := Opponent.linear) Tables.unit_points = Some data /\
  Words.ramp data /\
  Words.outcome_channels (color_lookup_sRGBColor (CM := Opponent.linear) data 0)
  = Some (1 # 2, 0, 0)%Q /\
  color_lookup_sRGBColor (CM := Opponent.linear) data 0 <> Color black /\
  Words.outcome_channels (color_lookup_sRGBColor (CM := Opponent.linear) data 1)
  = Some (0, 1 # 2, 0)%Q /\
  color_lookup_sRGBColor (CM := Opponent.linear) data 1 <> Color white.
Proof.
  cbn zeta. split; [reflexivity |]. split; [exact unit_table_ramp |].
  split; [vm_compute; reflexivity |]. split.
  { intros H. apply (f_equal Words.outcome_channels) in H.
    vm_compute in H. discriminate. }
  split; [vm_compute; reflexivity |].
  intros H. apply (f_equal Words.outcome_channels) in H.
  vm_compute in H. discriminate.
Qed.

(** The linear stand-in satisfies the laws asked of the transforms. *)
Lemma linear_laws : ColorMathLaws Opponent.linear.
Proof.
  assert (N100 : Num.ofZ 100 <> 0) by (apply NumFacts.ofZ_neq0; lia).
  assert (N500 : Num.ofZ 500 <> 0) by (apply NumFacts.ofZ_neq0; lia).
  assert (N200 : Num.ofZ 200 <> 0) by (apply NumFacts.ofZ_neq0; lia).
  split.
  - intros [r g b]. cbn. unfold Opponent.linear_Lab_to_RGB, Opponent.linear_RGB_to_Lab.
    cbn. f_equal; field; auto.
  - intros [l a b]. cbn. unfold Opponent.linear_Lab_to_RGB, Opponent.linear_RGB_to_Lab.
    cbn. f_equal; field; auto.
  - cbn. unfold Opponent.linear_RGB_to_Lab. cbn. f_equal; ring.
  - cbn. unfold Opponent.linear_RGB_to_Lab. cbn. f_equal; ring.
Defined.

(** ** Evenly spaced scalars *)

Module Linspace.
Import NumFacts Num.


Lemma ofnat_0 : ofnat 0 = 0.
Proof. apply ofZ_0. Qed.

Lemma ofnat_neq0 (n : nat) : n <> 0%nat -> ofnat n <> 0.
Proof. intros H. apply ofZ_neq0. lia. Qed.

Lemma ofnat_double (n : nat) : ofnat (2 * n) = ofZ 2 * ofnat n.
Proof. unfold ofnat. rewrite <- ofZ_mul. f_equal. lia. Qed.

Lemma inv_0 : / (0 : Qc) = 0.
Proof. apply Qc_is_canon. reflexivity. Qed.



Lemma length (start stop : Qc) (num : nat) :
  List.length (linspace start stop num) = num.
Proof. unfold linspace. now rewrite length_map, length_seq. Qed.




End Linspace.

(** ** Luminance along the hue sweep *)

Section Luminance.
Import NumFacts Num.
Context {CM : ColorMath}.




End Luminance.


(** ** Doubling the resolution *)

Section Resample.
Import NumFacts Num Words.
Context {CM : ColorMath}.

Lemma list_pair_ind (A : Type) (P : list A -> Prop) :
  P [] -> (forall x, P [x]) ->
  (forall x y l, P l -> P (x :: y :: l)) ->
  forall l, P l.
Proof.
  intros H0 H1 H2 l.
  enough (H : P l /\ forall x, P (x :: l)) by apply H.
  induction l as [| y l [IHl IHx]]; split; auto.
Qed.

Lemma every_other_map (A B : Type) (f : A -> B) (l : list A) :
  every_other (map f l) = map f (every_other l).
Proof.
  induction l as [| x | x y l IH] using list_pair_ind; try reflexivity.
  cbn [map every_other]. now rewrite IH.
Qed.

Lemma every_other_combine (A B : Type) (l1 : list A) (l2 : list B) :
  every_other (combine l1 l2) = combine (every_other l1) (every_other l2).
Proof.
  revert l2. induction l1 as [| x | x y l1 IH] using list_pair_ind;
    intros l2; try reflexivity.
  - destruct l2 as [| a [| b l2]]; reflexivity.
  - destruct l2 as [| a [| b l2]]; try reflexivity.
    { cbn. now destruct (every_other l1). }
    change (every_other (combine (x :: y :: l1) (a :: b :: l2)))
      with ((x, a) :: every_other (combine l1 l2)).
    change (combine (every_other (x :: y :: l1)) (every_other (a :: b :: l2)))
      with ((x, a) :: combine (every_other l1) (every_other l2)).
    now rewrite IH.
Qed.

Lemma every_other_seq (n a : nat) :
  every_other (seq a (2 * n - 1)) = map (fun i => (a + 2 * i)%nat) (seq 0 n).
Proof.
  revert a. induction n as [| n IH]; intros a; [reflexivity |].
  destruct n as [| n].
  - cbn. now rewrite Nat.add_0_r.
  - replace (2 * S (S n) - 1)%nat with (S (S (2 * S n - 1))) by lia.
    change (seq a (S (S (2 * S n - 1))))
      with (a :: S a :: seq (S (S a)) (2 * S n - 1)).
    change (every_other (a :: S a :: seq (S (S a)) (2 * S n - 1)))
      with (a :: every_other (seq (S (S a)) (2 * S n - 1))).
    rewrite IH.
    change (seq 0 (S (S n))) with (0%nat :: seq 1 (S n)).
    rewrite <- (seq_shift (S n) 0). cbn [map]. rewrite map_map.
    f_equal; [lia |]. apply map_ext. intros i. lia.
Qed.

Lemma every_other_length (A : Type) (l : list A) (n : nat) :
  length l = (2 * n - 1)%nat -> length (every_other l) = n.
Proof.
  revert n. induction l as [| x | x y l IH] using list_pair_ind; intros n H.
  - cbn in *. lia.
  - cbn in *. lia.
  - cbn [length every_other] in *. destruct n as [| n]; [lia |].
    f_equal. apply IH. lia.
Qed.

(** Entry [2i] of [linspace(start, stop, 2n-1)] is entry [i] of
    [linspace(start, stop, n)]. *)
Lemma linspace_every_other (start stop : Qc) (n : nat) :
  every_other (linspace start stop (2 * n - 1)) = linspace start stop n.
Proof.
  unfold linspace. rewrite every_other_map, every_other_seq, map_map.
  apply map_ext. intros i. cbn [Nat.add].
  replace (2 * n - 1 - 1)%nat with (2 * (n - 1))%nat by lia.
  rewrite !Linspace.ofnat_double. f_equal.
  destruct (Nat.eq_dec (n - 1) 0) as [-> | NE].
  - rewrite Linspace.ofnat_0. unfold Qcdiv.
    rewrite Qcmult_0_r, !Linspace.inv_0. ring.
  - field. split; [now apply Linspace.ofnat_neq0 | apply Bisection.ofZ_2_neq0].
Qed.

(** C8, as the code has it.  The table to compare against has 2R - 1
    rows, not 2R: entry 2i of the scalars at resolution 2R - 1 is entry i
    of the scalars at resolution R, so taking every other row of the
    finer table gives back the coarser table, in both modes and without
    any error. *)
Theorem resample_odd_refinement (R : nat) :
  every_other (linspace 0 1 (2 * R - 1)) = linspace 0 1 R /\
  (forall data : list sample,
     every_other (map (color_lookup_sRGBColor data) (linspace 0 1 (2 * R - 1)))
     = map (color_lookup_sRGBColor data) (linspace 0 1 R)) /\
  (forall start_hue end_hue : Qc,
     every_other (Kindlmann.hue_sweep start_hue end_hue (2 * R - 1))
     = Kindlmann.hue_sweep start_hue end_hue R).
Proof.
  split; [apply linspace_every_other |]. split.
  - intros data. now rewrite every_other_map, linspace_every_other.
  - intros start_hue end_hue.
    unfold Kindlmann.hue_sweep, Kindlmann.build_kindlmann_colors.
    rewrite every_other_map, every_other_combine, !Linspace.length.
    now rewrite !linspace_every_other.
Qed.
End Resample.

(** C8, as the specification words it, fails already at R = 2.  With four
    points the scalars are 0, 1/3, 2/3, 1, and every other one of them is
    0, 2/3, against 0, 1 with two points.  The sweep from hue 300 to hue 0
    then has green 2/3 where the two-point table has white, and the lookup
    on the ramp from dark red to dark green has (1/6, 1/3, 0) where the
    two-point table has (0, 1/2, 0): neither is within a tenth of the full
    scale.  At R = 8, the smallest table the notebooks write, the byte
    tables differ in every row but the first. *)
Lemma resample_even_differs :
  let sweep := fun n =>
    map Kindlmann.sRGBColor_
        (Kindlmann.hue_sweep (CM := Opponent.linear) 300%Z 0 n) in
  let looked := fun n =>
    map (color_lookup_sRGBColor (CM := Opponent.linear)
           (Tables.table Tables.unit_points))
        (linspace 0 1 n) in
  map this (Words.every_other (linspace 0 1 4)) = [0; 2 # 3]%Q /\
  map this (linspace 0 1 2) = [0; 1]%Q /\
  map Words.channels (Words.every_other (sweep 4%nat))
  = [(0, 0, 0); (187 # 768, 2 # 3, 49 # 1536)]%Q /\
  map Words.channels (sweep 2%nat) = [(0, 0, 0); (1, 1, 1)]%Q /\
  ~ Forall2 (Words.within (Q2Qc (1 # 10)))
      (Words.every_other (sweep 4%nat)) (sweep 2%nat) /\
  map Words.outcome_channels (Words.every_other (looked 4%nat))
  = [Some (1 # 2, 0, 0); Some (1 # 6, 1 # 3, 0)]%Q /\
  map Words.outcome_channels (looked 2%nat)
  = [Some (1 # 2, 0, 0); Some (0, 1 # 2, 0)]%Q /\
  map get_upscaled_value_tuple (Words.every_other (sweep 16%nat))
  = [(0, 0, 0); (104, 34, 244); (9, 68, 186); (5, 102, 102);
     (7, 136, 50); (62, 170, 8); (204, 204, 10); (254, 238, 230)]%Z /\
  map get_upscaled_value_tuple (sweep 8%nat)
  = [(0, 0, 0); (96, 36, 245); (8, 73, 160); (5, 109, 94);
     (7, 146, 27); (108, 182, 9); (250, 219, 141); (255, 255, 255)]%Z.
Proof.
  cbn zeta. repeat split; try (vm_compute; reflexivity).
  intros H. inversion H as [| ? ? ? ? _ H2]; subst.
  inversion H2 as [| ? ? ? ? H3 _]; subst.
  destruct H3 as (_ & (_ & Hg) & _).
  vm_compute in Hg. apply Hg. reflexivity.
Qed.

(** ** The control points of the notebook *)

(** The eleven control points pair the hues 300, 270, ..., 0 with the
    scalars 0, 1/10, ..., 1; whatever the transforms are, the first row is
    black and the last row is white.  The nine rows in between depend on
    the cube roots and the 2.4 power of the true transforms. *)
Lemma control_points_grid :
  map (fun r => (this (Kindlmann.hue r), this (Kindlmann.scalar r)))
      (Kindlmann.control_points (CM := Opponent.linear) 300%Z 0)
  = [(300, 0); (270, 1 # 10); (240, 1 # 5); (210, 3 # 10); (180, 2 # 5);
     (150, 1 # 2); (120, 3 # 5); (90, 7 # 10); (60, 4 # 5); (30, 9 # 10);
     (0, 1)]%Q.
Proof. vm_compute. reflexivity. Qed.

Lemma control_points_ends (CM : ColorMath) (hue : Qc) :
  get_upscaled_value_tuple (Kindlmann.scale_hue hue 0) = (0, 0, 0)%Z /\
  get_upscaled_value_tuple (Kindlmann.scale_hue hue 1) = (255, 255, 255)%Z.
Proof.
  rewrite scale_hue_low by apply Qcle_refl.
  rewrite scale_hue_high by apply Qcle_refl.
  split; reflexivity.
Qed.

(** * Further properties of the code *)

(** ** The safe-colour test *)

Section SafeColor.
Import NumFacts Num Words.
Context {CM : ColorMath}.

Lemma max_ge_l (x y : Qc) : x <= Num.max x y.
Proof.
  unfold Num.max. destruct (x <=? y) eqn:E.
  - now apply leb_le.
  - apply Qcle_refl.
Qed.

Lemma min_le_l (x y : Qc) : Num.min x y <= x.
Proof.
  unfold Num.min. destruct (x <=? y) eqn:E.
  - apply Qcle_refl.
  - apply leb_gt in E. now apply Qclt_le_weak.
Qed.

Lemma spread_nonneg (r g b : Qc) :
  0 <= Q2Qc (5 # 100) * (Num.max (Num.max r g) b - Num.min (Num.min r g) b).
Proof.
  assert (H1 : Num.min (Num.min r g) b <= r)
    by exact (Qcle_trans _ _ _ (min_le_l _ _) (min_le_l _ _)).
  assert (H2 : r <= Num.max (Num.max r g) b)
    by exact (Qcle_trans _ _ _ (max_ge_l _ _) (max_ge_l _ _)).
  revert H1 H2.
  generalize (Num.max (Num.max r g) b) (Num.min (Num.min r g) b).
  intros M m H1 H2. qc_arith.
Qed.

Lemma safe_channels (c : color) :
  Kindlmann.safe_color c = true -> in_gamut (to_sRGB c).
Proof.
  intros H.
  unfold Kindlmann.safe_color, get_value_tuple in H.
  rewrite !andb_true_iff, !leb_le in H.
  assert (D := spread_nonneg (rgb_r (to_sRGB c)) (rgb_g (to_sRGB c))
                             (rgb_b (to_sRGB c))).
  revert H D.
  generalize (Q2Qc (5 # 100) *
              (Num.max (Num.max (rgb_r (to_sRGB c)) (rgb_g (to_sRGB c)))
                       (rgb_b (to_sRGB c))
               - Num.min (Num.min (rgb_r (to_sRGB c)) (rgb_g (to_sRGB c)))
                         (rgb_b (to_sRGB c)))).
  intros d H D. unfold in_gamut.
  destruct H as [[[[[H1 H2] H3] H4] H5] H6].
  repeat split; qc_arith.
Qed.

Lemma in_gamut_bytes (c : sRGB) :
  in_gamut c -> Ranges.byte_triple (get_upscaled_value_tuple c).
Proof.
  intros [[? ?] [[? ?] [? ?]]].
  unfold Ranges.byte_triple, get_upscaled_value_tuple.
  assert (R := proj2 (upscale_byte (rgb_r c))).
  assert (G := proj2 (upscale_byte (rgb_g c))).
  assert (B := proj2 (upscale_byte (rgb_b c))).
  destruct R, G, B; try (now apply in_unit_rounds). tauto.
Qed.

(** X1.  A colour that passes [safe_color] has every channel in [0,1] and
    passes [valid_color]. *)
Theorem safe_color_in_gamut (c : color) :
  Kindlmann.safe_color c = true ->
  in_gamut (to_sRGB c) /\ Kindlmann.valid_color c = true.
Proof.
  intros H. assert (G := safe_channels c H).
  split; [exact G |].
  destruct (in_gamut_bytes _ G) as ((? & ?) & (? & ?) & (? & ?)).
  unfold Kindlmann.valid_color, get_upscaled_value_tuple.
  rewrite !andb_true_iff, !Z.leb_le. tauto.
Qed.
End SafeColor.

Lemma safe_color_in_gamut_mid_gray :
  Words.in_gamut (to_sRGB (CM := Opponent.linear)
                    (sRGBColor Tables.half Tables.half Tables.half)) /\
  Kindlmann.valid_color (CM := Opponent.linear)
    (sRGBColor Tables.half Tables.half Tables.half) = true.
Proof.
  apply (safe_color_in_gamut (CM := Opponent.linear)
           (sRGBColor Tables.half Tables.half Tables.half)).
  reflexivity.
Defined.

Section GraySafe.
Import NumFacts Num Words.
Context {CM : ColorMath}.

Lemma max_same (v : Qc) : Num.max v v = v.
Proof. unfold Num.max. now destruct (v <=? v). Qed.

Lemma min_same (v : Qc) : Num.min v v = v.
Proof. unfold Num.min. now destruct (v <=? v). Qed.

(** A colour whose three channels are equal is safe exactly when the
    common value lies in [0,1]: the clamp distance of a gray is zero. *)
Lemma gray_safe_iff (c : color) (v : Qc) :
  to_sRGB c = sRGBColor v v v ->
  (Kindlmann.safe_color c = true <-> 0 <= v /\ v <= 1).
Proof.
  intros E. unfold Kindlmann.safe_color, get_value_tuple. rewrite E.
  cbn [rgb_r rgb_g rgb_b]. rewrite !max_same, !min_same.
  replace (Q2Qc (5 # 100) * (v - v)) with (0 : Qc) by ring.
  replace (1 - 0) with (1 : Qc) by ring.
  rewrite !andb_true_iff, !leb_le. tauto.
Qed.
End GraySafe.

Lemma gray_safe_iff_half_luminance :
  Kindlmann.safe_color (CM := Opponent.linear) (LabColor 50%Z 0 0) = true
  <-> 0 <= Tables.half /\ Tables.half <= 1.
Proof.
  apply (gray_safe_iff (CM := Opponent.linear) (LabColor 50%Z 0 0) Tables.half).
  cbn. unfold Opponent.linear_Lab_to_RGB. cbn.
  f_equal; apply Qc_is_canon; reflexivity.
Defined.

(** ** How close the bisection gets *)

Section Tight.
Import NumFacts Num Bisection.
Variable safe : Qc -> bool.

(** The upper end of the bracket is either still the initial 1 or a
    midpoint that failed the test. *)
Lemma bisect_upper (n i : nat) (k : Z) :
  (0 <= k < 2 ^ Z.of_nat i)%Z ->
  ((k + 1 = 2 ^ Z.of_nat i)%Z \/ safe (dyadic i (k + 1)) = false) ->
  exists k' : Z,
    (0 <= k' < 2 ^ Z.of_nat (i + n))%Z /\
    Kindlmann.bisect safe n (dyadic i k) (dyadic i (k + 1))
    = (dyadic (i + n) k', dyadic (i + n) (k' + 1)) /\
    ((k' + 1 = 2 ^ Z.of_nat (i + n))%Z \/
     safe (dyadic (i + n) (k' + 1)) = false).
Proof.
  revert i k. induction n as [|n IH]; intros i k Hk Hs.
  - exists k. rewrite Nat.add_0_r. auto.
  - cbn [Kindlmann.bisect]. rewrite dyadic_mid.
    assert (Hp : (2 ^ Z.of_nat (S i) = 2 * 2 ^ Z.of_nat i)%Z)
      by (rewrite Nat2Z.inj_succ, Z.pow_succ_r; lia).
    replace (i + S n)%nat with (S i + n)%nat by lia.
    destruct (safe (dyadic (S i) (2 * k + 1))) eqn:Hmid.
    + replace (dyadic i (k + 1)) with (dyadic (S i) (2 * k + 1 + 1))
        by (rewrite (dyadic_double i (k + 1)); f_equal; lia).
      apply IH; [lia |].
      destruct Hs as [Hs | Hs]; [left; lia | right].
      replace (2 * k + 1 + 1)%Z with (2 * (k + 1))%Z by lia.
      now rewrite <- dyadic_double.
    + rewrite (dyadic_double i k).
      apply IH; [lia | now right].
Qed.

Lemma dyadic_succ (i : nat) (k : Z) :
  dyadic i (k + 1) = dyadic i k + 1 / Num.ofZ (2 ^ Z.of_nat i).
Proof. unfold dyadic. rewrite ofZ_add, ofZ_1. field. apply pow2_neq0. Qed.

Lemma dyadic_inj (i : nat) (j k : Z) : dyadic i j = dyadic i k -> j = k.
Proof.
  unfold dyadic. intros H. apply ofZ_inj.
  assert (E : forall z : Z,
             Num.ofZ z = Num.ofZ z / Num.ofZ (2 ^ Z.of_nat i) * Num.ofZ (2 ^ Z.of_nat i))
    by (intros z; field; apply pow2_neq0).
  rewrite (E j), (E k), H. reflexivity.
Qed.

Lemma dyadic_double_zero (i : nat) : dyadic i 0 = 0.
Proof. unfold dyadic. rewrite ofZ_0. field. apply pow2_neq0. Qed.

Lemma dyadic_full (i : nat) : dyadic i (2 ^ Z.of_nat i) = 1.
Proof. unfold dyadic. field. apply pow2_neq0. Qed.

(** After [n] rounds from the bracket (0, 1) the two ends are [2^-n]
    apart, the lower end is 0 or passed the test, and the upper end is 1
    or failed it. *)
Lemma bisect_bracket (n : nat) :
  let low := fst (Kindlmann.bisect safe n 0 1) in
  let high := snd (Kindlmann.bisect safe n 0 1) in
  high = low + 1 / Num.ofZ (2 ^ Z.of_nat n) /\
  0 <= low /\ high <= 1 /\
  (low = 0 \/ safe low = true) /\
  (high = 1 \/ safe high = false).
Proof.
  assert (E0 : dyadic 0 0 = 0) by (rewrite dyadic_0; apply ofZ_0).
  assert (E1 : dyadic 0 (0 + 1) = 1) by (rewrite dyadic_0; apply ofZ_1).
  assert (Hk : (0 <= 0 < 2 ^ Z.of_nat 0)%Z) by (cbn; lia).
  destruct (bisect_dyadic safe n 0 0 Hk (or_introl eq_refl))
    as (k1 & Hk1 & Hb1 & Hs1).
  destruct (bisect_upper n 0 0 Hk (or_introl eq_refl))
    as (k2 & Hk2 & Hb2 & Hs2).
  rewrite E0, E1 in Hb1, Hb2.
  assert (k2 = k1).
  { rewrite Hb1 in Hb2. assert (Ha := f_equal fst Hb2). cbn [fst] in Ha.
    symmetry. exact (dyadic_inj _ _ _ Ha). }
  subst k2. cbn zeta. rewrite Hb1. cbn [fst snd].
  change (0 + n)%nat with n in *.
  split; [apply dyadic_succ |]. split.
  { rewrite <- (dyadic_double_zero n). apply dyadic_le. lia. }
  split.
  { rewrite <- (dyadic_full n). apply dyadic_le. lia. }
  split.
  - destruct Hs1 as [-> | Hs1]; [left; apply dyadic_double_zero | now right].
  - destruct Hs2 as [Hs2 | Hs2]; [left | now right].
    rewrite Hs2. apply dyadic_full.
Qed.
End Tight.

Section Largest.
Import NumFacts Num Bisection Ranges.

End Largest.


Section ChromaTight.
Import NumFacts Num Bisection Words Ranges.
Context {CM : ColorMath}.

(** X3.  The grid point just above the chroma scale that [scale_hue] settles on
    is either 1 or a scale the loop tested and found unsafe: the scale is
    within [2^-12] of a refused one, or it is [1 - 2^-12]. *)
Theorem chroma_scale_tight (hue scalar : Qc) :
  let next := Kindlmann.chroma_scale hue scalar + 1 / Num.ofZ (2 ^ 12) in
  next = 1 \/
  Kindlmann.safe_color (Kindlmann.scaled_lab hue scalar next) = false.
Proof.
  unfold Kindlmann.chroma_scale.
  set (safe := fun mid_scale : Qc => _).
  destruct (bisect_bracket safe 12) as (Hw & _ & _ & _ & Hsh).
  change (2 ^ Z.of_nat 12)%Z with (2 ^ 12)%Z in Hw.
  cbn zeta. rewrite <- Hw. exact Hsh.
Qed.

Lemma scale_hue_safe (hue scalar : Qc) :
  (0 < scalar -> scalar < 1 ->
   Kindlmann.safe_color (LabColor (100%Z * scalar) 0 0) = true) ->
  Kindlmann.safe_color (Kindlmann.scale_hue hue scalar) = true.
Proof.
  intros Hgray.
  destruct (Qclt_le_dec 0 scalar) as [H0 | H0].
  - destruct (Qclt_le_dec scalar 1) as [H1 | H1].
    + rewrite scale_hue_inside by assumption.
      change (Kindlmann.safe_color
                (Kindlmann.scaled_lab hue scalar
                   (Kindlmann.chroma_scale hue scalar)) = true).
      destruct (chroma_scale_dyadic hue scalar) as (k & _ & Hscale & [-> | Hs]).
      * rewrite Hscale, dyadic12_bottom. unfold Kindlmann.scaled_lab.
        rewrite !Qcmult_0_l. now apply Hgray.
      * now rewrite Hscale.
    + rewrite scale_hue_high by exact H1.
      apply (proj2 (gray_safe_iff white 1 eq_refl)).
      split; [apply Qclt_le_weak; reflexivity | apply Qcle_refl].
  - rewrite scale_hue_low by exact H0.
    apply (proj2 (gray_safe_iff black 0 eq_refl)).
    split; [apply Qcle_refl | apply Qclt_le_weak; reflexivity].
Qed.
End ChromaTight.

Section DisplayableTable.
Import NumFacts Num Words Ranges.
Context {CM : ColorMath}.

(** X2.  Provided the gray at the luminance of each row whose scalar lies
    strictly between 0 and 1 is safe, every row of the table of
    [build_kindlmann_colors] holds a colour that passes [safe_color], has
    its channels in [0,1], and has its byte triple within 0..255: the
    search never hands out a colour it did not test, except that gray.
    The grays asked for are those of the scalars of the table itself,
    [linspace(0, 1, size)]. *)
Theorem hue_table_displayable (hue_array : list Qc) :
  (forall scalar : Qc,
     In scalar (linspace 0 1 (length hue_array)) ->
     0 < scalar -> scalar < 1 ->
     Kindlmann.safe_color (LabColor (100%Z * scalar) 0 0) = true) ->
  Forall (fun r : Kindlmann.row =>
            Kindlmann.safe_color (Kindlmann.sRGBColor_ r) = true /\
            in_gamut (Kindlmann.sRGBColor_ r) /\
            byte_triple (Kindlmann.RGB r))
         (Kindlmann.build_kindlmann_colors hue_array).
Proof.
  intros Hgray. unfold Kindlmann.build_kindlmann_colors.
  apply Forall_forall. intros r Hin.
  apply in_map_iff in Hin as ([h s] & <- & Hin).
  apply in_combine_r in Hin.
  cbn [Kindlmann.sRGBColor_ Kindlmann.RGB fst snd].
  assert (Hs : Kindlmann.safe_color (Kindlmann.scale_hue h s) = true)
    by (apply scale_hue_safe; intros; now apply Hgray).
  assert (G := safe_channels _ Hs). cbn [to_sRGB] in G.
  split; [exact Hs |]. split; [exact G |].
  now apply in_gamut_bytes.
Qed.
End DisplayableTable.

Lemma linear_gray_safe (scalar : Qc) :
  0 < scalar -> scalar < 1 ->
  Kindlmann.safe_color (CM := Opponent.linear) (LabColor (100%Z * scalar) 0 0) = true.
Proof.
  intros H0 H1.
  assert (E : to_sRGB (CM := Opponent.linear) (LabColor (100%Z * scalar) 0 0)
              = sRGBColor scalar scalar scalar).
  { change (sRGBColor (100%Z * scalar / 100%Z + 0 / 500%Z)
                      (100%Z * scalar / 100%Z)
                      (100%Z * scalar / 100%Z - 0 / 200%Z)
            = sRGBColor scalar scalar scalar).
    f_equal; field; try split; apply NumFacts.ofZ_neq0; lia. }
  apply (proj2 (gray_safe_iff (CM := Opponent.linear) _ scalar E)).
  split; now apply Qclt_le_weak.
Defined.

(** The theorem for the eleven control point hues, on the linear
    stand-in. *)
Lemma hue_table_displayable_control_points :
  Forall (fun r : Kindlmann.row =>
            Kindlmann.safe_color (CM := Opponent.linear) (Kindlmann.sRGBColor_ r) = true /\
            Words.in_gamut (Kindlmann.sRGBColor_ r) /\
            Ranges.byte_triple (Kindlmann.RGB r))
         (Kindlmann.build_kindlmann_colors (CM := Opponent.linear)
            (linspace 300%Z 0 11)).
Proof.
  apply (hue_table_displayable (CM := Opponent.linear) (linspace 300%Z 0 11)).
  intros scalar _. exact (linear_gray_safe scalar).
Defined.

(** ** The scan on arbitrary tables *)

Section AnyTable.
Import NumFacts Num Words.
Context {CM : ColorMath}.

Lemma interpolate_color (low high : sample) (x : Qc) :
  scalar high - scalar low <> 0 ->
  exists c : sRGB, interpolate low high x = Color c.
Proof.
  intros H. unfold interpolate.
  destruct (Qc_eq_dec (scalar high - scalar low) 0) as [E | _];
    [now elim H | eexists; reflexivity].
Qed.

Lemma interpolate_zero (low high : sample) (x : Qc) :
  interpolate low high x = ZeroDivision <-> scalar low = scalar high.
Proof.
  unfold interpolate.
  destruct (Qc_eq_dec (scalar high - scalar low) 0) as [E | NE]; split; intros H;
    try reflexivity; try discriminate.
  - rewrite <- (Qcplus_0_l (scalar low)), <- E. ring.
  - elim NE. rewrite H. ring.
Qed.

(** Once the scan has moved past a row whose scalar is below the query,
    it cannot meet a zero denominator any more. *)
Lemma scan_past (low : sample) (rest : list sample) (x : Qc) :
  scalar low < x -> scan (low :: rest) x <> ZeroDivision.
Proof.
  revert low. induction rest as [| high rest IH]; intros low Hlow.
  - discriminate.
  - rewrite scan_step. destruct (scalar high <? x) eqn:E.
    + apply ltb_lt in E. now apply IH.
    + apply ltb_ge in E. rewrite interpolate_zero. intros Heq.
      rewrite Heq in Hlow. exact (Qclt_not_le _ _ Hlow E).
Qed.

(** X5.  On any table, sorted or not, the lookup meets a zero denominator in
    exactly one situation: the query is not negative, the first two rows
    carry the same scalar, and the query does not exceed it.  A repeated
    scalar further down the table is never divided by. *)
Theorem zero_division_first_rows (data : list sample) (x : Qc) :
  color_lookup_sRGBColor data x = ZeroDivision <->
  0 <= x /\
  exists (low high : sample) (rest : list sample),
    data = low :: high :: rest /\ scalar low = scalar high /\ x <= scalar high.
Proof.
  unfold color_lookup_sRGBColor. destruct (x <? 0) eqn:Ex.
  - apply ltb_lt in Ex. split; [discriminate |].
    intros [H0 _]. exfalso. exact (Qclt_not_le _ _ Ex H0).
  - apply ltb_ge in Ex. split.
    + intros H. split; [exact Ex |].
      destruct data as [| low [| high rest]]; try discriminate.
      exists low, high, rest. rewrite scan_step in H.
      destruct (scalar high <? x) eqn:E.
      * apply ltb_lt in E. now apply scan_past in H.
      * apply ltb_ge in E. apply interpolate_zero in H. auto.
    + intros (_ & low & high & rest & -> & Heq & Hx).
      rewrite scan_step, (proj2 (ltb_ge _ _) Hx).
      now apply interpolate_zero.
Qed.

Lemma selected_none (data : list sample) (x : Qc) :
  selected data x = None <-> Forall (fun s => scalar s < x) (tl data).
Proof.
  induction data as [| low [| high rest] IH].
  - split; [constructor | reflexivity].
  - split; [constructor | reflexivity].
  - cbn [selected tl] in *. destruct (scalar high <? x) eqn:E.
    + apply ltb_lt in E. rewrite IH. split.
      * intros H. now constructor.
      * intros H. now inversion H.
    + apply ltb_ge in E. split; [discriminate |].
      intros H. inversion H; subst. exfalso. eapply Qclt_not_le; eassumption.
Qed.

(** X6.  On any table, a query that is not negative runs off the end of the
    table, and is answered white, exactly when every scalar after the
    first row is below it.  Tables with fewer than two rows therefore
    answer white to every such query, never their own sample. *)
Theorem lookup_runs_off (data : list sample) (x : Qc) :
  0 <= x ->
  (selected data x = None <-> Forall (fun s => scalar s < x) (tl data)) /\
  (Forall (fun s => scalar s < x) (tl data) ->
   color_lookup_sRGBColor data x = Color white) /\
  ((length data <= 1)%nat -> color_lookup_sRGBColor data x = Color white).
Proof.
  intros H0. split; [apply selected_none |].
  assert (W : Forall (fun s => scalar s < x) (tl data) ->
              color_lookup_sRGBColor data x = Color white).
  { intros H. apply selected_none in H.
    rewrite lookup_nonneg, selected_scan, H by exact H0. reflexivity. }
  split; [exact W |].
  intros Hlen. apply W.
  destruct data as [| low [| high rest]]; [constructor | constructor |].
  cbn in Hlen. lia.
Qed.
End AnyTable.

Lemma lookup_runs_off_single_row :
  let data := [Sample Tables.half Tables.dark_red
                 (to_Lab (CM := Opponent.linear) Tables.dark_red)] in
  (selected data Tables.half = None
   <-> Forall (fun s => scalar s < Tables.half) (tl data)) /\
  (Forall (fun s => scalar s < Tables.half) (tl data) ->
   color_lookup_sRGBColor (CM := Opponent.linear) data Tables.half = Color white) /\
  ((length data <= 1)%nat ->
   color_lookup_sRGBColor (CM := Opponent.linear) data Tables.half = Color white).
Proof.
  apply (lookup_runs_off (CM := Opponent.linear)
           [Sample Tables.half Tables.dark_red
              (to_Lab (CM := Opponent.linear) Tables.dark_red)] Tables.half).
  vm_compute. discriminate.
Defined.

(** ** The lookup at and around the input samples *)

Section Nodes.
Import NumFacts Num Words.
Context {CM : ColorMath}.

Lemma increasing_above (low : sample) (rest : list sample) :
  increasing (low :: rest) -> Forall (fun s => scalar low < scalar s) rest.
Proof.
  revert low. induction rest as [| high rest IH]; intros low H; [constructor |].
  apply increasing_inv in H as [Hlt Hinc]. constructor; [exact Hlt |].
  apply (Forall_impl _ (P := fun s => scalar high < scalar s)); [| now apply IH].
  intros s Hs. exact (Qclt_trans _ _ _ Hlt Hs).
Qed.

Lemma scan_at_sample (low : sample) (rest : list sample) (s : sample) :
  increasing (low :: rest) -> rest <> [] -> In s (low :: rest) ->
  scan (low :: rest) (scalar s) = Color (to_sRGB (lab_values s)).
Proof.
  revert low. induction rest as [| high rest IH]; intros low Hinc Hne Hin;
    [now elim Hne |].
  destruct (increasing_inv _ _ _ Hinc) as [Hlt Hinc'].
  rewrite scan_step. destruct Hin as [<- | [<- | Hin]].
  - rewrite (proj2 (ltb_ge _ _) (Qclt_le_weak _ _ Hlt)).
    now apply interpolate_at_low.
  - rewrite (proj2 (ltb_ge _ _) (Qcle_refl _)).
    now apply interpolate_at_high.
  - assert (Hs : scalar high < scalar s).
    { assert (F := increasing_above _ _ Hinc').
      rewrite Forall_forall in F. now apply F. }
    rewrite (proj2 (ltb_lt _ _) Hs). apply IH; trivial.
    + intros ->. destruct Hin.
    + now right.
Qed.

(** X7.  On a loaded table with strictly increasing scalars, none negative,
    and at least two rows, the lookup at the scalar of any input sample
    returns that sample taken to Lab and back; with exact conversions,
    that sample's own colour.  The interpolation passes through every
    input point. *)
Theorem lookup_through_samples (points : list Qc) (data : list sample)
        (s : sample) :
  load points = Some data -> increasing data -> (2 <= length data)%nat ->
  0 <= first_scalar data -> In s data ->
  color_lookup_sRGBColor data (scalar s)
  = Color (to_sRGB (to_Lab (rgb_values s))) /\
  (ColorMathLaws CM ->
   color_lookup_sRGBColor data (scalar s) = Color (rgb_values s)).
Proof.
  intros Hload Hinc Hlen Hfirst Hin.
  assert (Hlab : lab_values s = to_Lab (rgb_values s)).
  { assert (F := load_lab_values _ _ Hload). rewrite Forall_forall in F.
    now apply F. }
  destruct data as [| low rest]; [destruct Hin |].
  assert (Hne : rest <> []) by (intros ->; cbn in Hlen; lia).
  assert (H0 : 0 <= scalar s).
  { cbn in Hfirst. destruct Hin as [<- | Hin]; [exact Hfirst |].
    assert (F := increasing_above _ _ Hinc). rewrite Forall_forall in F.
    apply Qclt_le_weak, (Qcle_lt_trans _ _ _ Hfirst). now apply F. }
  assert (E : color_lookup_sRGBColor (low :: rest) (scalar s)
              = Color (to_sRGB (to_Lab (rgb_values s)))).
  { rewrite lookup_nonneg by exact H0.
    rewrite scan_at_sample by assumption. now rewrite Hlab. }
  split; [exact E |].
  intros laws. rewrite E. cbn [to_sRGB to_Lab]. now rewrite RGB_Lab_RGB.
Qed.

(** X8.  Between 0 and the first scalar of the table the lookup does not
    clamp: it extends the first interval backwards, with a negative
    interpolation fraction. *)
Theorem lookup_below_first (low high : sample) (rest : list sample) (x : Qc) :
  increasing (low :: high :: rest) -> 0 <= x -> x < scalar low ->
  let t := (x - scalar low) / (scalar high - scalar low) in
  t < 0 /\
  color_lookup_sRGBColor (low :: high :: rest) x
  = Color (to_sRGB (lerp_lab (lab_values low) (lab_values high) t)).
Proof.
  intros Hinc H0 Hx t.
  destruct (increasing_inv _ _ _ Hinc) as [Hlt _].
  split.
  - unfold t, Qcdiv.
    assert (Hd : 0 < / (scalar high - scalar low)).
    { apply inv_pos. revert Hlt. generalize (scalar high) (scalar low).
      intros h l Hlt. qc_arith. }
    rewrite <- (Qcmult_0_l (/ (scalar high - scalar low))).
    apply Qcmult_lt_compat_r; [exact Hd |].
    revert Hx. generalize (scalar low). intros l Hx. qc_arith.
  - rewrite lookup_nonneg by exact H0.
    rewrite scan_step.
    assert (Hxh : x <= scalar high)
      by exact (Qclt_le_weak _ _ (Qclt_trans _ _ _ Hx Hlt)).
    rewrite (proj2 (ltb_ge _ _) Hxh). now apply interpolate_lerp.
Qed.
End Nodes.

Lemma lookup_through_samples_unit_table :
  let s := Sample 1 Tables.dark_green
             (to_Lab (CM := Opponent.linear) Tables.dark_green) in
  color_lookup_sRGBColor (CM := Opponent.linear)
    (Tables.table Tables.unit_points) (scalar s)
  = Color (to_sRGB (CM := Opponent.linear)
             (to_Lab (CM := Opponent.linear) (rgb_values s))) /\
  (ColorMathLaws Opponent.linear ->
   color_lookup_sRGBColor (CM := Opponent.linear)
     (Tables.table Tables.unit_points) (scalar s) = Color (rgb_values s)).
Proof.
  apply (lookup_through_samples (CM := Opponent.linear) Tables.unit_points
           (Tables.table Tables.unit_points)).
  - reflexivity.
  - exact unit_table_increasing.
  - cbn. lia.
  - vm_compute. discriminate.
  - right. left. reflexivity.
Defined.

Lemma lookup_below_first_half :
  let low := Sample Tables.half Tables.dark_red
               (to_Lab (CM := Opponent.linear) Tables.dark_red) in
  let high := Sample 1 Tables.dark_green
                (to_Lab (CM := Opponent.linear) Tables.dark_green) in
  let t := (0 - scalar low) / (scalar high - scalar low) in
  t < 0 /\
  color_lookup_sRGBColor (CM := Opponent.linear) [low; high] 0
  = Color (to_sRGB (CM := Opponent.linear)
             (Words.lerp_lab (lab_values low) (lab_values high) t)).
Proof.
  apply (lookup_below_first (CM := Opponent.linear)
           (Sample Tables.half Tables.dark_red
              (to_Lab (CM := Opponent.linear) Tables.dark_red))
           (Sample 1 Tables.dark_green
              (to_Lab (CM := Opponent.linear) Tables.dark_green))
           [] 0).
  - repeat constructor.
  - vm_compute. discriminate.
  - reflexivity.
Defined.

(** ** Luminance along the interpolated lookup *)

Section LookupLuminance.
Import NumFacts Num Words Ranges.
Context {CM : ColorMath}.

Lemma mul_nonneg (a b : Qc) : 0 <= a -> 0 <= b -> 0 <= a * b.
Proof.
  intros Ha Hb. rewrite <- (Qcmult_0_l b). now apply Qcmult_le_compat_r.
Qed.

Lemma sub_nonneg (a b : Qc) : a <= b -> 0 <= b - a.
Proof. intros H. qc_arith. Qed.

Lemma sub_pos (a b : Qc) : a < b -> 0 < b - a.
Proof. intros H. qc_arith. Qed.

Lemma fraction_unit (l h x : Qc) :
  l < h -> l <= x -> x <= h ->
  0 <= (x - l) / (h - l) /\ (x - l) / (h - l) <= 1.
Proof.
  intros Hlh Hlx Hxh.
  assert (Hi : 0 <= / (h - l)) by (apply Qclt_le_weak, inv_pos, sub_pos, Hlh).
  unfold Qcdiv. split.
  - apply mul_nonneg; [now apply sub_nonneg | exact Hi].
  - rewrite <- (Qcmult_inv_r (h - l)) by now apply lt_neq_sub.
    apply Qcmult_le_compat_r; [| exact Hi].
    revert Hxh. generalize x h l. intros a b c H. qc_arith.
Qed.

Lemma fraction_mono (l h x y : Qc) :
  l < h -> x <= y -> (x - l) / (h - l) <= (y - l) / (h - l).
Proof.
  intros Hlh Hxy. unfold Qcdiv. apply Qcmult_le_compat_r.
  - revert Hxy. generalize x y l. intros a b c H. qc_arith.
  - apply Qclt_le_weak, inv_pos, sub_pos, Hlh.
Qed.

Lemma lerp_mono (a b t u : Qc) : a <= b -> t <= u -> lerp a b t <= lerp a b u.
Proof.
  intros Hab Htu. unfold lerp.
  apply Qcplus_le_compat; [apply Qcle_refl |].
  apply Qcmult_le_compat_r; [exact Htu | now apply sub_nonneg].
Qed.

Lemma lerp_at_0 (a b : Qc) : lerp a b 0 = a.
Proof. unfold lerp. ring. Qed.

Lemma lerp_at_1 (a b : Qc) : lerp a b 1 = b.
Proof. unfold lerp. ring. Qed.

Lemma lerp_between (a b t : Qc) :
  a <= b -> 0 <= t -> t <= 1 -> a <= lerp a b t /\ lerp a b t <= b.
Proof.
  intros Hab H0 H1. split.
  - rewrite <- (lerp_at_0 a b) at 1. now apply lerp_mono.
  - rewrite <- (lerp_at_1 a b) at 2. now apply lerp_mono.
Qed.

Lemma brightening_inv (low high : sample) (rest : list sample) :
  brightening (low :: high :: rest) ->
  lab_l (lab_values low) <= lab_l (lab_values high) /\ brightening (high :: rest).
Proof.
  unfold brightening, luminances. cbn [map]. intros H.
  inversion H as [| ? ? Hs Hr]; subst.
  inversion Hr; subst. split; assumption.
Qed.

Lemma interpolate_lab_lerp (low high : sample) (x : Qc) :
  scalar low < scalar high ->
  MidLab.interpolate_lab low high x
  = Some (lerp_lab (lab_values low) (lab_values high)
            ((x - scalar low) / (scalar high - scalar low))).
Proof.
  intros H. unfold MidLab.interpolate_lab.
  destruct (Qc_eq_dec (scalar high - scalar low) 0) as [E | _].
  - now apply lt_neq_sub in H.
  - unfold lerp_lab, lerp. f_equal. f_equal; ring.
Qed.

Lemma mid_lab_step (low high : sample) (rest : list sample) (x : Qc) :
  MidLab.mid_lab (low :: high :: rest) x
  = if scalar high <? x then MidLab.mid_lab (high :: rest) x
    else MidLab.interpolate_lab low high x.
Proof. reflexivity. Qed.

(** The lookup returns the conversion of the colour it interpolated. *)
Lemma mid_lab_scan (data : list sample) (x : Qc) (lab : Lab) :
  MidLab.mid_lab data x = Some lab -> scan data x = Color (to_sRGB lab).
Proof.
  induction data as [| low [| high rest] IH]; try discriminate.
  rewrite mid_lab_step, scan_step. destruct (scalar high <? x); [exact IH |].
  unfold MidLab.interpolate_lab, interpolate.
  destruct (Qc_eq_dec (scalar high - scalar low) 0); [discriminate |].
  intros H. inversion H. reflexivity.
Qed.

Lemma mid_lab_lower (low : sample) (rest : list sample) (x : Qc) :
  increasing (low :: rest) -> brightening (low :: rest) -> rest <> [] ->
  scalar low <= x -> x <= last_scalar (low :: rest) ->
  exists lab : Lab,
    MidLab.mid_lab (low :: rest) x = Some lab /\
    lab_l (lab_values low) <= lab_l lab.
Proof.
  revert low.
  induction rest as [| high rest IH]; intros low Hinc Hbr Hne Hlo Hhi;
    [now elim Hne |].
  destruct (increasing_inv _ _ _ Hinc) as [Hlt Hinc'].
  destruct (brightening_inv _ _ _ Hbr) as [HL Hbr'].
  change (last_scalar (low :: high :: rest)) with (last_scalar (high :: rest)) in Hhi.
  rewrite mid_lab_step. destruct (scalar high <? x) eqn:E.
  - apply ltb_lt in E.
    assert (Hne' : rest <> []).
    { intros ->. exact (Qclt_not_le _ _ E Hhi). }
    destruct (IH high Hinc' Hbr' Hne' (Qclt_le_weak _ _ E) Hhi) as (lab & Hc & Hl).
    exists lab. split; [exact Hc |]. exact (Qcle_trans _ _ _ HL Hl).
  - apply ltb_ge in E. rewrite interpolate_lab_lerp by exact Hlt.
    eexists. split; [reflexivity |]. cbn [lerp_lab lab_l].
    destruct (fraction_unit _ _ _ Hlt Hlo E) as [T0 T1].
    now apply lerp_between.
Qed.

Lemma mid_lab_mono (low : sample) (rest : list sample) (x y : Qc) :
  increasing (low :: rest) -> brightening (low :: rest) -> rest <> [] ->
  scalar low <= x -> x <= y -> y <= last_scalar (low :: rest) ->
  exists lx ly : Lab,
    MidLab.mid_lab (low :: rest) x = Some lx /\
    MidLab.mid_lab (low :: rest) y = Some ly /\
    lab_l lx <= lab_l ly.
Proof.
  revert low.
  induction rest as [| high rest IH]; intros low Hinc Hbr Hne Hlo Hxy Hhi;
    [now elim Hne |].
  destruct (increasing_inv _ _ _ Hinc) as [Hlt Hinc'].
  destruct (brightening_inv _ _ _ Hbr) as [HL Hbr'].
  change (last_scalar (low :: high :: rest))
    with (last_scalar (high :: rest)) in Hhi.
  rewrite !mid_lab_step. destruct (scalar high <? x) eqn:Ex.
  - apply ltb_lt in Ex.
    assert (Ey : scalar high < y) by exact (Qclt_le_trans _ _ _ Ex Hxy).
    rewrite (proj2 (ltb_lt _ _) Ey).
    assert (Hne' : rest <> []).
    { intros ->. exact (Qclt_not_le _ _ Ey Hhi). }
    exact (IH high Hinc' Hbr' Hne' (Qclt_le_weak _ _ Ex) Hxy Hhi).
  - apply ltb_ge in Ex. rewrite (interpolate_lab_lerp low high x) by exact Hlt.
    destruct (fraction_unit _ _ _ Hlt Hlo Ex) as [T0 T1].
    destruct (scalar high <? y) eqn:Ey.
    + apply ltb_lt in Ey.
      assert (Hne' : rest <> []).
      { intros ->. exact (Qclt_not_le _ _ Ey Hhi). }
      destruct (mid_lab_lower high rest y Hinc' Hbr' Hne'
                  (Qclt_le_weak _ _ Ey) Hhi) as (ly & Hcy & Hly).
      eexists. exists ly. split; [reflexivity |]. split; [exact Hcy |].
      cbn [lerp_lab lab_l].
      apply Qcle_trans with (lab_l (lab_values high)); [| exact Hly].
      now apply lerp_between.
    + apply ltb_ge in Ey. rewrite (interpolate_lab_lerp low high y) by exact Hlt.
      do 2 eexists. split; [reflexivity |]. split; [reflexivity |].
      cbn [lerp_lab lab_l].
      apply lerp_mono; [exact HL | now apply fraction_mono].
Qed.

(** X9.  On a table of at least two rows whose scalars strictly increase
    and whose Lab luminances never decrease, the Lab colour that the
    lookup interpolates never gets darker as the query grows: for queries
    x <= y that are not negative and lie between the first and the last
    scalar, both lookups interpolate a Lab colour and return its
    conversion, and the luminance of the colour interpolated at x is at
    most that of the colour interpolated at y.  Nothing is assumed of the
    conversions. *)
Theorem lookup_luminance_monotone (data : list sample) (x y : Qc) :
  increasing data -> brightening data -> (2 <= length data)%nat ->
  0 <= x -> first_scalar data <= x -> x <= y -> y <= last_scalar data ->
  exists lx ly : Lab,
    MidLab.mid_lab data x = Some lx /\
    MidLab.mid_lab data y = Some ly /\
    color_lookup_sRGBColor data x = Color (to_sRGB lx) /\
    color_lookup_sRGBColor data y = Color (to_sRGB ly) /\
    lab_l lx <= lab_l ly.
Proof.
  intros Hinc Hbr Hlen H0 Hlo Hxy Hhi.
  destruct data as [| low rest]; [cbn in Hlen; lia |].
  assert (Hne : rest <> []) by (intros ->; cbn in Hlen; lia).
  destruct (mid_lab_mono low rest x y Hinc Hbr Hne Hlo Hxy Hhi)
    as (lx & ly & Hx & Hy & Hl).
  exists lx, ly. split; [exact Hx |]. split; [exact Hy |].
  rewrite !lookup_nonneg by (trivial; exact (Qcle_trans _ _ _ H0 Hxy)).
  split; [now apply mid_lab_scan |]. split; [now apply mid_lab_scan | exact Hl].
Qed.
End LookupLuminance.

Lemma lookup_luminance_monotone_unit_table :
  let data := Tables.table Tables.unit_points in
  exists lx ly : Lab,
    MidLab.mid_lab data (Q2Qc (1 # 4)) = Some lx /\
    MidLab.mid_lab data (Q2Qc (3 # 4)) = Some ly /\
    color_lookup_sRGBColor (CM := Opponent.linear) data (Q2Qc (1 # 4))
    = Color (to_sRGB (CM := Opponent.linear) lx) /\
    color_lookup_sRGBColor (CM := Opponent.linear) data (Q2Qc (3 # 4))
    = Color (to_sRGB (CM := Opponent.linear) ly) /\
    lab_l lx <= lab_l ly.
Proof.
  apply (lookup_luminance_monotone (CM := Opponent.linear)
           (Tables.table Tables.unit_points) (Q2Qc (1 # 4)) (Q2Qc (3 # 4))).
  - exact unit_table_increasing.
  - repeat constructor; vm_compute; discriminate.
  - cbn. lia.
  - vm_compute. discriminate.
  - vm_compute. discriminate.
  - vm_compute. discriminate.
  - vm_compute. discriminate.
Defined.

(** ** Reading and writing the flat list of points *)

Section Points.
Import NumFacts Num Words.
Context {CM : ColorMath}.

(** Statements about flat lists are proved four entries at a time. *)
Lemma list_four_ind (A : Type) (P : list A -> Prop) :
  P [] -> (forall a, P [a]) -> (forall a b, P [a; b]) ->
  (forall a b c, P [a; b; c]) ->
  (forall a b c d l, P l -> P (a :: b :: c :: d :: l)) ->
  forall l, P l.
Proof.
  intros H0 H1 H2 H3 H4 l.
  enough (H : P l /\ (forall a, P (a :: l)) /\ (forall a b, P (a :: b :: l)) /\
              (forall a b c, P (a :: b :: c :: l))) by apply H.
  induction l as [| d l (IH0 & IH1 & IH2 & IH3)]; repeat split; auto.
Qed.

Lemma read_points_step (s r g b : Qc) (rest : list Qc) :
  read_points (s :: r :: g :: b :: rest)
  = match read_points rest with
    | Some rows => Some ((s, sRGBColor r g b) :: rows)
    | None => None
    end.
Proof. reflexivity. Qed.

Lemma mod4_step (n : nat) : (S (S (S (S n))) mod 4 = n mod 4)%nat.
Proof.
  replace (S (S (S (S n)))) with (n + 1 * 4)%nat by lia.
  apply Nat.Div0.mod_add.
Qed.

(** X10.  The load fails exactly when the length of the flat list is not a
    multiple of four; when it succeeds the table has a quarter as many
    rows, and writing the rows out again in the [RGBPoints] layout gives
    the list that was read. *)
Theorem load_round_trip (points : list Qc) :
  (load points = None <-> (length points mod 4 <> 0)%nat) /\
  (forall data : list sample,
     load points = Some data ->
     length points = (4 * length data)%nat /\
     RGBPoints (map (fun s => (scalar s, rgb_values s)) data) = points).
Proof.
  assert (R : (read_points points = None <-> (length points mod 4 <> 0)%nat) /\
              (forall rows, read_points points = Some rows ->
                 length points = (4 * length rows)%nat /\ RGBPoints rows = points)).
  { induction points as [| a | a b | a b c | s r g b rest [IHn IHs]]
      using list_four_ind;
      try (split; [split; [intros _; cbn; lia | reflexivity] | discriminate]).
    - split.
      + split; [discriminate | intros H; now elim H].
      + intros rows H. inversion H; subst. split; reflexivity.
    - rewrite read_points_step. cbn [length]. rewrite mod4_step.
      destruct (read_points rest) as [rows |].
      + split.
        * split; [discriminate |]. intros H. apply IHn in H. discriminate.
        * intros rows' H. inversion H; subst.
          destruct (IHs rows eq_refl) as [Hl Hp].
          cbn [length]. split; [lia |].
          change (RGBPoints ((s, sRGBColor r g b) :: rows))
            with (s :: r :: g :: b :: RGBPoints rows).
          now rewrite Hp.
      + split; [| discriminate].
        split; [intros _; now apply IHn | reflexivity]. }
  destruct R as [Rn Rs]. unfold load.
  destruct (read_points points) as [rows |] eqn:E.
  - split.
    + split; [discriminate |]. intros H. apply Rn in H. discriminate.
    + intros data H. inversion H; subst.
      destruct (Rs rows eq_refl) as [Hl Hp].
      rewrite length_map, map_map.
      split; [exact Hl |].
      transitivity (RGBPoints rows); [f_equal | exact Hp].
      transitivity (map (fun sc : Qc * sRGB => sc) rows); [| apply map_id].
      apply map_ext. now intros [s c].
  - split; [| discriminate].
    split; [intros _; now apply Rn | reflexivity].
Qed.

Lemma tuple_of_color (c : sRGB) :
  (let '(r, g, b) := get_value_tuple c in sRGBColor r g b) = c.
Proof. now destruct c. Qed.

(** X11.  The preset that kindlmann.ipynb writes can be read back by the loop
    of viridis.ipynb: the table loaded from the exported points has one
    sample per row of the colour table, with the same scalar and the same
    colour. *)
Theorem kindlmann_preset_loads (hue_array : list Qc) :
  let color_table := Kindlmann.build_kindlmann_colors hue_array in
  load (Preset.kindlmann_RGBPoints color_table)
  = Some (map (fun r => Sample (Kindlmann.scalar r) (Kindlmann.sRGBColor_ r)
                          (to_Lab (Kindlmann.sRGBColor_ r)))
              color_table).
Proof.
  cbn zeta.
  assert (E : Preset.kindlmann_RGBPoints (Kindlmann.build_kindlmann_colors hue_array)
              = RGBPoints (map (fun r => (Kindlmann.scalar r, Kindlmann.sRGBColor_ r))
                               (Kindlmann.build_kindlmann_colors hue_array))).
  { unfold Preset.kindlmann_RGBPoints, RGBPoints, Kindlmann.build_kindlmann_colors.
    rewrite !flat_map_concat_map, !map_map. reflexivity. }
  rewrite E. unfold load. rewrite read_points_RGBPoints, map_map. reflexivity.
Qed.
End Points.

(** ** The error estimate of the control points *)

Section MaxError.
Import NumFacts Num Ranges.
Import Reduce.
Variables control_points control_points_compare : list bytes.

Lemma raise_to_cases (m d : Qc) :
  (raise_to m d = m /\ d <= m) \/ (raise_to m d = d /\ m < d).
Proof.
  unfold raise_to. destruct (m <? d) eqn:E.
  - right. split; [reflexivity | now apply ltb_lt].
  - left. split; [reflexivity | now apply ltb_ge].
Qed.

Lemma column_pass_some (m m' : Qc) (index : nat) :
  column_pass control_points control_points_compare m index = Some m' ->
  exists d1 d2 d3 : Qc,
    diffs_at control_points control_points_compare index = [d1; d2; d3] /\
    m' = raise_to (raise_to (raise_to m d1) d2) d3.
Proof.
  unfold column_pass, diffs_at.
  destruct (nth_error control_points_compare (index * 2 + 1)) as [[[er eg] eb] |];
    [| discriminate].
  destruct (nth_error control_points index) as [[[lr lg] lb] |]; [| discriminate].
  destruct (nth_error control_points (index + 1)) as [[[hr hg] hb] |];
    [| discriminate].
  intros H. inversion H. do 3 eexists. split; reflexivity.
Qed.

Lemma column_pass_none (m : Qc) (index : nat) :
  column_pass control_points control_points_compare m index = None <->
  (length control_points_compare <= index * 2 + 1 \/
   length control_points <= index + 1)%nat.
Proof.
  unfold column_pass.
  destruct (nth_error control_points_compare (index * 2 + 1))
    as [[[er eg] eb] |] eqn:E1.
  - assert (L1 : (index * 2 + 1 < length control_points_compare)%nat)
      by (apply nth_error_Some; congruence).
    destruct (nth_error control_points (index + 1)) as [[[hr hg] hb] |] eqn:E3.
    + assert (L3 : (index + 1 < length control_points)%nat)
        by (apply nth_error_Some; congruence).
      destruct (nth_error control_points index) as [[[lr lg] lb] |] eqn:E2.
      * split; [discriminate | lia].
      * apply nth_error_None in E2. lia.
    + apply nth_error_None in E3.
      destruct (nth_error control_points index) as [[[lr lg] lb] |];
        (split; [intros _; now right | reflexivity]).
  - apply nth_error_None in E1. split; [intros _; now left | reflexivity].
Qed.

Lemma raise3 (m d1 d2 d3 : Qc) :
  let m' := raise_to (raise_to (raise_to m d1) d2) d3 in
  m <= m' /\ d1 <= m' /\ d2 <= m' /\ d3 <= m' /\
  (m' = m \/ m' = d1 \/ m' = d2 \/ m' = d3).
Proof.
  cbn zeta.
  destruct (raise_to_cases m d1) as [[-> H1] | [-> H1]];
  destruct (raise_to_cases m d2) as [[E2 H2] | [E2 H2]];
  destruct (raise_to_cases d1 d2) as [[E2' H2'] | [E2' H2']];
  rewrite ?E2, ?E2';
  destruct (raise_to_cases m d3) as [[E3 H3] | [E3 H3]];
  destruct (raise_to_cases d1 d3) as [[E3' H3'] | [E3' H3']];
  destruct (raise_to_cases d2 d3) as [[E3'' H3''] | [E3'' H3'']];
  rewrite ?E3, ?E3', ?E3'';
  repeat split; auto 6; try apply Qcle_refl;
  revert H1; try revert H2; try revert H2'; try revert H3;
  try revert H3'; try revert H3''; clear; intros; qc_arith.
Qed.

Lemma error_loop_bounds (indices : list nat) (m r : Qc) :
  error_loop control_points control_points_compare indices m = Some r ->
  m <= r /\
  (forall (index : nat) (d : Qc),
     In index indices ->
     In d (diffs_at control_points control_points_compare index) -> d <= r) /\
  (r = m \/
   exists (index : nat) (d : Qc),
     In index indices /\
     In d (diffs_at control_points control_points_compare index) /\ r = d).
Proof.
  revert m. induction indices as [| index indices IH]; intros m H.
  - inversion H; subst. split; [apply Qcle_refl |].
    split; [intros ? ? [] | now left].
  - cbn [error_loop] in H.
    destruct (column_pass control_points control_points_compare m index)
      as [m' |] eqn:E; [| discriminate].
    destruct (column_pass_some _ _ _ E) as (d1 & d2 & d3 & Hd & ->).
    destruct (raise3 m d1 d2 d3) as (B0 & B1 & B2 & B3 & Hm).
    destruct (IH _ H) as (Hle & Hall & Hex).
    split; [exact (Qcle_trans _ _ _ B0 Hle) |]. split.
    + intros i d [<- | Hi] Hin.
      * rewrite Hd in Hin.
        destruct Hin as [<- | [<- | [<- | []]]];
          eapply Qcle_trans; eauto.
      * now apply (Hall i d).
    + destruct Hex as [-> | (i & d & Hi & Hin & ->)].
      * destruct Hm as [-> | Hm]; [now left | right].
        exists index. rewrite Hd.
        destruct Hm as [-> | [-> | ->]]; eexists; (split; [now left |]);
          (split; [| reflexivity]); cbn; auto.
      * right. exists i, d. repeat split; trivial. now right.
Qed.

Lemma error_loop_none (indices : list nat) (m : Qc) :
  error_loop control_points control_points_compare indices m = None <->
  exists index : nat,
    In index indices /\
    (length control_points_compare <= index * 2 + 1 \/
     length control_points <= index + 1)%nat.
Proof.
  revert m. induction indices as [| index indices IH]; intros m.
  - split; [discriminate | intros (? & [] & _)].
  - cbn [error_loop].
    destruct (column_pass control_points control_points_compare m index)
      as [m' |] eqn:E.
    + rewrite IH. split.
      * intros (i & Hi & H). exists i. split; [now right | exact H].
      * intros (i & [<- | Hi] & H).
        -- apply (column_pass_none m) in H. congruence.
        -- exists i. auto.
    + split; [| reflexivity]. intros _. exists index.
      split; [now left | now apply (column_pass_none m)].
Qed.
End MaxError.

Section MaxErrorFacts.
Import NumFacts Num Ranges.
Import Reduce.

(** X12.  On tables of byte triples, when [max_error] completes, its
    value is the largest of the midpoint differences over all intervals
    and all three channels: it is not negative, no difference exceeds it,
    and it is 0 or one of them. *)
Theorem max_error_is_maximum (table_length : nat)
        (control_points control_points_compare : list bytes) (m : Qc) :
  Forall byte_triple control_points ->
  Forall byte_triple control_points_compare ->
  max_error table_length control_points control_points_compare = Some m ->
  0 <= m /\
  (forall (index : nat) (d : Qc),
     (index < table_length - 1)%nat ->
     In d (diffs_at control_points control_points_compare index) -> d <= m) /\
  (m = 0 \/
   exists (index : nat) (d : Qc),
     (index < table_length - 1)%nat /\
     In d (diffs_at control_points control_points_compare index) /\ m = d).
Proof.
  unfold max_error. intros _ _ H.
  destruct (error_loop_bounds _ _ _ _ _ H) as (H0 & Hall & Hex).
  split; [exact H0 |]. split.
  - intros index d Hi. apply Hall. apply in_seq. lia.
  - destruct Hex as [-> | (index & d & Hi & Hin & ->)]; [now left | right].
    exists index, d. apply in_seq in Hi. repeat split; trivial. lia.
Qed.

(** X13.  [max_error] stops on a missing row exactly when there is an interval
    to visit and one of the tables is too short for it: the control points
    have fewer than [table_length] rows, or the comparison table fewer
    than [2 * table_length - 2]. *)
Theorem max_error_missing_row (table_length : nat)
        (control_points control_points_compare : list bytes) :
  max_error table_length control_points control_points_compare = None <->
  (2 <= table_length)%nat /\
  (length control_points_compare < 2 * table_length - 2 \/
   length control_points < table_length)%nat.
Proof.
  unfold max_error. rewrite error_loop_none. split.
  - intros (index & Hi & H). apply in_seq in Hi. lia.
  - intros (Hn & H). exists (table_length - 2)%nat. split.
    + apply in_seq. lia.
    + lia.
Qed.

Lemma ofZ_opp (a : Z) : Num.ofZ (- a) = - Num.ofZ a.
Proof.
  apply Qc_is_canon. unfold Num.ofZ, Qcopp, Q2Qc; cbn [this].
  rewrite !Qred_correct, inject_Z_opp. reflexivity.
Qed.

Lemma abs_ofZ (z : Z) : Qcabs.Qcabs (Num.ofZ z) = Num.ofZ (Z.abs z).
Proof.
  destruct (Z_le_gt_dec 0 z) as [H | H].
  - rewrite Z.abs_eq by exact H. apply Qcabs.Qcabs_pos.
    rewrite <- ofZ_0. apply (proj1 (ofZ_le _ _)). lia.
  - rewrite Z.abs_neq by lia. rewrite ofZ_opp. apply Qcabs.Qcabs_neg.
    rewrite <- ofZ_0. apply (proj1 (ofZ_le _ _)). lia.
Qed.

(** A midpoint difference is half an integer. *)
Lemma diff_half (e l h : Z) :
  diff e l h = Num.ofZ (Z.abs (2 * e - l - h)) / Num.ofZ 2.
Proof.
  unfold diff.
  replace (Num.ofZ e - (Num.ofZ l + Num.ofZ h) / Num.ofZ 2)
    with (Num.ofZ (2 * e - l - h) * / Num.ofZ 2).
  - rewrite Qcabs.Qcabs_Qcmult, abs_ofZ.
    rewrite (Qcabs.Qcabs_pos (/ Num.ofZ 2)); [reflexivity |].
    apply Qclt_le_weak, inv_pos. reflexivity.
  - replace (2 * e - l - h)%Z with (2 * e + (- l + - h))%Z by lia.
    rewrite !ofZ_add, ofZ_mul, !ofZ_opp. field. apply Bisection.ofZ_2_neq0.
Qed.

Lemma diffs_at_in (control_points control_points_compare : list bytes)
      (index : nat) (d : Qc) :
  In d (diffs_at control_points control_points_compare index) ->
  exists e l h : Z,
    d = diff e l h /\
    (Forall byte_triple control_points ->
     Forall byte_triple control_points_compare ->
     (0 <= e <= 255)%Z /\ (0 <= l <= 255)%Z /\ (0 <= h <= 255)%Z).
Proof.
  unfold diffs_at.
  destruct (nth_error control_points_compare (index * 2 + 1))
    as [[[er eg] eb] |] eqn:E1; [| intros []].
  destruct (nth_error control_points index) as [[[lr lg] lb] |] eqn:E2;
    [| intros []].
  destruct (nth_error control_points (index + 1)) as [[[hr hg] hb] |] eqn:E3;
    [| intros []].
  apply nth_error_In in E1, E2, E3.
  intros [<- | [<- | [<- | []]]]; do 3 eexists; (split; [reflexivity |]);
    intros Fc Fe; rewrite Forall_forall in Fc, Fe;
    specialize (Fe _ E1); specialize (Fc _ E2) as Fl; specialize (Fc _ E3);
    cbn in Fe, Fl, Fc; tauto.
Qed.

(** X14.  The value of [max_error] is half of a natural number, and on tables
    of byte values it is at most 255. *)
Theorem max_error_half_integer (table_length : nat)
        (control_points control_points_compare : list bytes) (m : Qc) :
  max_error table_length control_points control_points_compare = Some m ->
  exists k : Z,
    (0 <= k)%Z /\ m = Num.ofZ k / Num.ofZ 2 /\
    (Forall byte_triple control_points ->
     Forall byte_triple control_points_compare ->
     (k <= 510)%Z /\ m <= Num.ofZ 255).
Proof.
  unfold max_error. intros H.
  destruct (error_loop_bounds _ _ _ _ _ H) as (_ & _ & [-> | (i & d & _ & Hin & ->)]).
  - exists 0%Z. split; [lia |]. split.
    + rewrite ofZ_0. field. apply Bisection.ofZ_2_neq0.
    + intros _ _. split; [lia |]. rewrite <- ofZ_0. apply (proj1 (ofZ_le _ _)). lia.
  - destruct (diffs_at_in _ _ _ _ Hin) as (e & l & h & -> & Hb).
    exists (Z.abs (2 * e - l - h)). split; [lia |].
    split; [apply diff_half |].
    intros Fc Fe. destruct (Hb Fc Fe) as (He & Hl & Hh).
    assert (Hk : (Z.abs (2 * e - l - h) <= 510)%Z) by lia.
    split; [exact Hk |].
    rewrite diff_half.
    replace (Num.ofZ 255) with (Num.ofZ 510 * / Num.ofZ 2)
      by (apply Qc_is_canon; reflexivity).
    unfold Qcdiv. apply Qcmult_le_compat_r; [exact (proj1 (ofZ_le _ _) Hk) |].
    apply Qclt_le_weak, inv_pos. reflexivity.
Qed.
End MaxErrorFacts.

(** The error estimate of a two-row table against its three-row
    refinement: the midpoint (5, 10, 15) against (6, 10, 14). *)
Lemma max_error_example :
  Reduce.max_error 2 [(0, 0, 0); (10, 20, 30)]%Z
                     [(0, 0, 0); (6, 10, 14); (10, 20, 30)]%Z
  = Some 1.
Proof. vm_compute. f_equal. apply Qc_is_canon. reflexivity. Defined.

Lemma max_error_is_maximum_example :
  let control_points := [(0, 0, 0); (10, 20, 30)]%Z in
  let control_points_compare := [(0, 0, 0); (6, 10, 14); (10, 20, 30)]%Z in
  0 <= 1 /\
  (forall (index : nat) (d : Qc),
     (index < 2 - 1)%nat ->
     In d (Reduce.diffs_at control_points control_points_compare index) -> d <= 1) /\
  (1 = 0 \/
   exists (index : nat) (d : Qc),
     (index < 2 - 1)%nat /\
     In d (Reduce.diffs_at control_points control_points_compare index) /\ 1 = d).
Proof.
  apply (max_error_is_maximum 2 [(0, 0, 0); (10, 20, 30)]%Z
           [(0, 0, 0); (6, 10, 14); (10, 20, 30)]%Z 1).
  - repeat constructor; cbn; lia.
  - repeat constructor; cbn; lia.
  - exact max_error_example.
Defined.

Lemma max_error_half_integer_example :
  let control_points := [(0, 0, 0); (10, 20, 30)]%Z in
  let control_points_compare := [(0, 0, 0); (6, 10, 14); (10, 20, 30)]%Z in
  exists k : Z,
    (0 <= k)%Z /\ 1 = Num.ofZ k / Num.ofZ 2 /\
    (Forall Ranges.byte_triple control_points ->
     Forall Ranges.byte_triple control_points_compare ->
     (k <= 510)%Z /\ 1 <= Num.ofZ 255).
Proof.
  apply (max_error_half_integer 2 [(0, 0, 0); (10, 20, 30)]%Z
           [(0, 0, 0); (6, 10, 14); (10, 20, 30)]%Z 1).
  exact max_error_example.
Defined.

(** ** The shape of the generated tables *)

Section Shapes.
Import NumFacts Num Words Ranges.
Context {CM : ColorMath}.

Lemma map_fst_combine (A B : Type) (l1 : list A) (l2 : list B) :
  length l1 = length l2 -> map fst (combine l1 l2) = l1.
Proof.
  revert l2. induction l1 as [| a l1 IH]; intros [| b l2] H;
    try reflexivity; try discriminate.
  cbn. f_equal. apply IH. now inversion H.
Qed.

Lemma map_snd_combine (A B : Type) (l1 : list A) (l2 : list B) :
  length l1 = length l2 -> map snd (combine l1 l2) = l2.
Proof.
  revert l2. induction l1 as [| a l1 IH]; intros [| b l2] H;
    try reflexivity; try discriminate.
  cbn. f_equal. apply IH. now inversion H.
Qed.

Lemma sorted_map_seq (f : nat -> Qc) (start len : nat) :
  (forall i : nat, f i < f (S i)) -> Sorted Qclt (map f (seq start len)).
Proof.
  intros Hf. revert start. induction len as [| len IH]; intros start.
  - constructor.
  - cbn [seq map]. constructor; [apply IH |].
    destruct len; constructor. apply Hf.
Qed.

Lemma ofnat_succ (i : nat) : ofnat (S i) = ofnat i + 1.
Proof. unfold ofnat. rewrite Nat2Z.inj_succ, <- Z.add_1_r, ofZ_add, ofZ_1. reflexivity. Qed.

Lemma linspace_unit_sorted (num : nat) : Sorted Qclt (linspace 0 1 num).
Proof.
  destruct num as [| [| num]]; [constructor | repeat constructor |].
  unfold linspace. apply sorted_map_seq. intros i.
  rewrite ofnat_succ.
  assert (Hs : 0 < (1 - 0) / ofnat (S (S num) - 1)).
  { replace ((1 - 0) / ofnat (S (S num) - 1)) with (/ ofnat (S num))
      by (unfold Qcdiv; replace (S (S num) - 1)%nat with (S num) by lia; ring).
    apply inv_pos. rewrite <- Linspace.ofnat_0. unfold ofnat.
    apply (proj1 (ofZ_lt _ _)). lia. }
  revert Hs. generalize ((1 - 0) / ofnat (S (S num) - 1)). intros step Hs.
  replace (0 + (ofnat i + 1) * step) with (0 + ofnat i * step + step) by ring.
  generalize (0 + ofnat i * step). intros a. qc_arith.
Qed.

Lemma linspace_unit_ends (num : nat) :
  (2 <= num)%nat ->
  hd 1 (linspace 0 1 num) = 0 /\ last (linspace 0 1 num) 0 = 1.
Proof.
  intros Hn. destruct num as [| num]; [lia |]. unfold linspace. split.
  - cbn [seq map hd]. rewrite Linspace.ofnat_0. ring.
  - rewrite seq_S, map_app. cbn [map]. rewrite last_last.
    replace (S num - 1)%nat with num by lia. cbn [Nat.add].
    field. apply Linspace.ofnat_neq0. lia.
Qed.

(** X15.  The table of [build_kindlmann_colors] has one row per hue, in the
    order given; its scalars are [linspace(0, 1, size)], strictly
    increasing, and with at least two hues they start at 0 and end at 1;
    every row holds [scale_hue] of its own hue and scalar, with the byte
    and float tuples of that colour. *)
Theorem hue_table_shape (hue_array : list Qc) :
  let rows := Kindlmann.build_kindlmann_colors hue_array in
  length rows = length hue_array /\
  map Kindlmann.hue rows = hue_array /\
  map Kindlmann.scalar rows = linspace 0 1 (length hue_array) /\
  Sorted Qclt (map Kindlmann.scalar rows) /\
  ((2 <= length hue_array)%nat ->
   hd 1 (map Kindlmann.scalar rows) = 0 /\
   last (map Kindlmann.scalar rows) 0 = 1) /\
  Forall (fun r =>
            Kindlmann.sRGBColor_ r
            = Kindlmann.scale_hue (Kindlmann.hue r) (Kindlmann.scalar r) /\
            Kindlmann.RGB r = get_upscaled_value_tuple (Kindlmann.sRGBColor_ r) /\
            Kindlmann.sRGB_ r = get_value_tuple (Kindlmann.sRGBColor_ r))
         rows.
Proof.
  cbn zeta. unfold Kindlmann.build_kindlmann_colors.
  assert (L : length hue_array = length (linspace 0 1 (length hue_array)))
    by now rewrite Linspace.length.
  assert (S : map Kindlmann.scalar
                (map (fun hs : Qc * Qc =>
                        Kindlmann.Row (fst hs) (snd hs)
                          (Kindlmann.scale_hue (fst hs) (snd hs))
                          (get_upscaled_value_tuple
                             (Kindlmann.scale_hue (fst hs) (snd hs)))
                          (get_value_tuple
                             (Kindlmann.scale_hue (fst hs) (snd hs))))
                     (combine hue_array (linspace 0 1 (length hue_array))))
              = linspace 0 1 (length hue_array)).
  { rewrite map_map. cbn [Kindlmann.scalar]. now apply map_snd_combine. }
  split.
  { rewrite length_map, length_combine, <- L. apply Nat.min_id. }
  split.
  { rewrite map_map. cbn [Kindlmann.hue]. now apply map_fst_combine. }
  split; [exact S |]. rewrite S.
  split; [apply linspace_unit_sorted |].
  split; [apply linspace_unit_ends |].
  apply Forall_forall. intros r Hin.
  apply in_map_iff in Hin as (hs & <- & _). cbn. auto.
Qed.
End Shapes.

Section SampledTables.
Import NumFacts Num Words Ranges.
Import Reduce.
Context {CM : ColorMath}.

Lemma lookup_upscaled_some (data : list sample) (x : Qc) :
  increasing data -> color_lookup_upscaled data x <> None.
Proof.
  intros Hinc. unfold color_lookup_upscaled, color_lookup_sRGBColor.
  destruct (x <? 0); [discriminate |].
  destruct (scan_total data x Hinc) as [c ->]. discriminate.
Qed.

(** X16.  The tables sampled from a ramp (strictly increasing scalars, the
    first 0, the last 1) at any resolution of at least two rows are
    complete and anchored: they have the requested number of rows, their
    scalars are [linspace(0, 1, num)] and strictly increase, no row lacks
    a colour, the first row is the byte triple of the first input sample
    and the last row that of the last input sample, each taken to Lab and
    back. *)
Theorem color_table_anchored (data : list sample) (num : nat) :
  ramp data -> (2 <= num)%nat ->
  let table := color_table data num in
  length table = num /\
  map fst table = linspace 0 1 num /\
  Sorted Qclt (map fst table) /\
  Forall (fun row => snd row <> None) table /\
  exists (first : sample) (rest : list sample),
    data = first :: rest /\
    hd_error table
    = Some (0, Some (get_upscaled_value_tuple (to_sRGB (lab_values first)))) /\
    last table (0, None)
    = (1, Some (get_upscaled_value_tuple
                  (to_sRGB (lab_values (last rest first))))).
Proof.
  intros Hramp Hnum. cbn zeta. unfold color_table.
  assert (Hinc : increasing data) by apply Hramp.
  split; [now rewrite length_map, Linspace.length |].
  assert (F : map fst (map (fun x => (x, color_lookup_upscaled data x))
                           (linspace 0 1 num)) = linspace 0 1 num).
  { rewrite map_map. cbn [fst]. apply map_id. }
  split; [exact F |]. rewrite F.
  split; [apply linspace_unit_sorted |]. split.
  { apply Forall_forall. intros row Hin.
    apply in_map_iff in Hin as (x & <- & _). cbn [snd].
    now apply lookup_upscaled_some. }
  destruct (ramp_shape _ Hramp) as (first & rest & -> & Hne & Hfirst & Hlast).
  exists first, rest. split; [reflexivity |].
  assert (E0 : color_lookup_upscaled (first :: rest) 0
               = Some (get_upscaled_value_tuple (to_sRGB (lab_values first)))).
  { unfold color_lookup_upscaled.
    rewrite lookup_nonneg by apply Qcle_refl.
    rewrite <- Hfirst at 1. now rewrite scan_at_first. }
  assert (E1 : color_lookup_upscaled (first :: rest) 1
               = Some (get_upscaled_value_tuple
                         (to_sRGB (lab_values (last rest first))))).
  { unfold color_lookup_upscaled.
    rewrite lookup_nonneg by (apply Qclt_le_weak; reflexivity).
    rewrite <- Hlast. now rewrite scan_at_last. }
  destruct (linspace_unit_ends num Hnum) as [Hhd Hlst].
  destruct (linspace 0 1 num) as [| x0 xs] eqn:El.
  { cbn in Hhd. now elim zero_neq_one. }
  cbn [hd] in Hhd. subst x0. split.
  - cbn [map hd_error]. now rewrite E0.
  - assert (Hnn : 0 :: xs <> []) by discriminate.
    destruct (exists_last Hnn) as (l' & a & Ea).
    rewrite Ea in Hlst |- *. rewrite last_last in Hlst. subst a.
    rewrite map_app. cbn [map]. rewrite last_last. now rewrite E1.
Qed.
End SampledTables.

Lemma color_table_anchored_unit_table :
  let data := Tables.table Tables.unit_points in
  let table := Reduce.color_table (CM := Opponent.linear) data 8 in
  length table = 8%nat /\
  map fst table = linspace 0 1 8 /\
  Sorted Qclt (map fst table) /\
  Forall (fun row => snd row <> None) table /\
  exists (first : sample) (rest : list sample),
    data = first :: rest /\
    hd_error table
    = Some (0, Some (get_upscaled_value_tuple
                       (to_sRGB (CM := Opponent.linear) (lab_values first)))) /\
    last table (0, None)
    = (1, Some (get_upscaled_value_tuple
                  (to_sRGB (CM := Opponent.linear)
                     (lab_values (last rest first))))).
Proof.
  apply (color_table_anchored (CM := Opponent.linear)
           (Tables.table Tables.unit_points) 8).
  - exact unit_table_ramp.
  - lia.
Defined.

Section SweepEnds.
Import NumFacts Num Words Ranges.
Context {CM : ColorMath}.

Lemma linspace_snoc (start stop : Qc) (num : nat) :
  (1 <= num)%nat ->
  linspace start stop (S num)
  = map (fun i => start + ofnat i * ((stop - start) / ofnat num)) (seq 0 num)
    ++ [stop].
Proof.
  intros Hn. unfold linspace. rewrite seq_S, map_app.
  replace (S num - 1)%nat with num by lia. cbn [map Nat.add]. do 2 f_equal.
  field. apply Linspace.ofnat_neq0. lia.
Qed.

Lemma combine_snoc (A B : Type) (l1 : list A) (l2 : list B) (a : A) (b : B) :
  length l1 = length l2 ->
  combine (l1 ++ [a]) (l2 ++ [b]) = combine l1 l2 ++ [(a, b)].
Proof.
  revert l2. induction l1 as [| x l1 IH]; intros [| y l2] H;
    try discriminate; [reflexivity |].
  cbn. f_equal. apply IH. now inversion H.
Qed.

(** X17.  Every table that the sweep writes out, at any resolution of at least
    two rows, begins with black at the start hue and scalar 0 and ends
    with white at the end hue and scalar 1. *)
Theorem hue_sweep_ends (start_hue end_hue : Qc) (n : nat) :
  (2 <= n)%nat ->
  hd_error (Kindlmann.hue_sweep start_hue end_hue n)
  = Some (Kindlmann.Row start_hue 0 black (0, 0, 0)%Z (0, 0, 0)) /\
  last (Kindlmann.hue_sweep start_hue end_hue n)
       (Kindlmann.Row 0 0 black (0, 0, 0)%Z (0, 0, 0))
  = Kindlmann.Row end_hue 1 white (255, 255, 255)%Z (1, 1, 1).
Proof.
  intros Hn. unfold Kindlmann.hue_sweep, Kindlmann.build_kindlmann_colors.
  rewrite Linspace.length. split.
  - destruct n as [| n]; [lia |]. unfold linspace.
    cbn [seq map combine hd_error fst snd].
    rewrite Linspace.ofnat_0.
    replace (start_hue + 0 * ((end_hue - start_hue) / ofnat (S n - 1)))
      with start_hue by ring.
    replace (0 + 0 * ((1 - 0) / ofnat (S n - 1))) with (0 : Qc) by ring.
    rewrite scale_hue_low by apply Qcle_refl. reflexivity.
  - destruct n as [| n]; [lia |].
    rewrite !linspace_snoc by lia.
    rewrite combine_snoc by now rewrite !length_map.
    rewrite map_app. cbn [map]. rewrite last_last. cbn [fst snd].
    rewrite scale_hue_high by apply Qcle_refl. reflexivity.
Qed.
End SweepEnds.

Lemma hue_sweep_ends_eight :
  hd_error (Kindlmann.hue_sweep (CM := Opponent.linear) 300%Z 0 8)
  = Some (Kindlmann.Row 300%Z 0 black (0, 0, 0)%Z (0, 0, 0)) /\
  last (Kindlmann.hue_sweep (CM := Opponent.linear) 300%Z 0 8)
       (Kindlmann.Row 0 0 black (0, 0, 0)%Z (0, 0, 0))
  = Kindlmann.Row 0 1 white (255, 255, 255)%Z (1, 1, 1).
Proof.
  apply (hue_sweep_ends (CM := Opponent.linear) 300%Z 0 8). lia.
Defined.
